(** * Service Bus management client: paged listing and message settlement

    A shallow embedding of the parts of [ServiceBusManagementClient]
    (listing queues page by page, continuation tokens) and of the message
    settlement test-suite [backupMessageSettlement.spec.ts], with the
    properties of the design document proved or refuted on it. *)

From Stdlib Require Import ZArith QArith Qreduction List String Ascii Bool Lia Arith.
From Stdlib Require Decimal DecimalString DecimalNat.
Import ListNotations.

Local Close Scope Q_scope.
Local Open Scope string_scope.
Local Open Scope list_scope.

(* ================================================================== *)
(** * JavaScript values the client computes with *)
(* ================================================================== *)

Module JS.

(** A JavaScript string is a sequence of UTF-16 code units.  The strings of
    this development are Rocq strings, one character per code unit, so they
    cover the code units 0..255. *)

(** A JavaScript number.  [Finite neg q] stands for the binary64 value
    that the rational [(-1)^neg * q], with [0 <= q], rounds to (a zero when
    [q] is tiny, an infinity when it is huge); the sign is kept apart since
    [-0] is a value.  The two observations the client makes of a number,
    [x >= 0] and its truthiness, are defined below on the rounded value. *)
Inductive JSNumber : Type :=
| NaN
| Infinity (negative : bool)
| Finite (negative : bool) (magnitude : Q).

(** Magnitudes up to [2^-1075] round to zero (ties go to the even
    neighbour, which is zero); larger ones round to a non-zero value. *)
Definition rounds_to_zero (q : Q) : bool :=
  Qle_bool q (1 # (2 ^ 1075)).

(** [x >= 0] *)
Definition ge_zero (x : JSNumber) : bool :=
  match x with
  | NaN => false
  | Infinity negative => negb negative
  | Finite negative q => negb negative || rounds_to_zero q
  end.

(** [x < 0] *)
Definition lt_zero (x : JSNumber) : bool :=
  match x with
  | NaN => false
  | Infinity negative => negative
  | Finite negative q => negative && negb (rounds_to_zero q)
  end.

Definition isNaN (x : JSNumber) : bool :=
  match x with NaN => true | _ => false end.

(** ToBoolean on a number: [NaN], [+0] and [-0] are falsy. *)
Definition truthy_number (x : JSNumber) : bool :=
  match x with
  | NaN => false
  | Infinity _ => true
  | Finite _ q => negb (rounds_to_zero q)
  end.

(** The number with mantissa [m] and decimal exponent [e], in lowest
    terms. *)
Definition decimal_value (m e : Z) : Q :=
  if (0 <=? e)%Z then (m * 10 ^ e) # 1
  else Qred (m # Z.to_pos (10 ^ (- e))).

Definition of_nat (n : nat) : JSNumber := Finite false (Z.of_nat n # 1).

(** ** Rounding to binary64 *)

(** [floor (log2 (a / b))] *)
Definition floor_log2 (a b : positive) : Z :=
  let e := (Z.log2 (Zpos a) - Z.log2 (Zpos b))%Z in
  let below :=
    if (0 <=? e)%Z then (Zpos a <? 2 ^ e * Zpos b)%Z
    else (Zpos a * 2 ^ (- e) <? Zpos b)%Z in
  if below then (e - 1)%Z else e.

(** The binary64 value that a magnitude rounds to, to nearest with ties to
    even, in lowest terms: the magnitude is divided by the unit in the last
    place of its binade ([2^(e-52)] for the binade of [2^e], and [2^-1074]
    for the subnormal numbers), rounded to an integer of at most 53 bits
    and multiplied back.  [None] is the infinity that the magnitudes from
    [2^1024 - 2^970] on round to. *)
Definition binary64 (q : Q) : option Q :=
  match Qnum q with
  | Zpos a =>
      let b := Qden q in
      let u := Z.max (floor_log2 a b - 52) (-1074) in
      let '(n, d) :=
        if (0 <=? u)%Z then (Zpos a, Zpos b * 2 ^ u)%Z
        else (Zpos a * 2 ^ (- u), Zpos b)%Z in
      let f := (n / d)%Z in
      let m :=
        match (2 * (n mod d) ?= d)%Z with
        | Lt => f
        | Gt => (f + 1)%Z
        | Eq => if Z.even f then f else (f + 1)%Z
        end in
      if (0 <=? u)%Z then
        if (2 ^ 1024 <=? m * 2 ^ u)%Z then None else Some ((m * 2 ^ u) # 1)%Q
      else Some (Qred (m # Z.to_pos (2 ^ (- u))))
  | _ => Some (0 # 1)%Q
  end.

(** ** Characters *)

Definition code (c : ascii) : nat := nat_of_ascii c.

Definition between (lo hi : nat) (c : ascii) : bool :=
  (lo <=? code c)%nat && (code c <=? hi)%nat.

(** StrWhiteSpaceChar: TAB, LF, VT, FF, CR, SP, NBSP (the white space and
    line terminators among the code units 0..255). *)
Definition is_whitespace (c : ascii) : bool :=
  between 9 13 c || (code c =? 32)%nat || (code c =? 160)%nat.

Definition is_digit (c : ascii) : bool := between 48 57 c.

(** The value of a digit of radix up to 36, if [c] is one. *)
Definition digit_of (c : ascii) : option Z :=
  if between 48 57 c then Some (Z.of_nat (code c) - 48)%Z
  else if between 97 122 c then Some (Z.of_nat (code c) - 87)%Z
  else if between 65 90 c then Some (Z.of_nat (code c) - 55)%Z
  else None.

Definition is_radix_digit (radix : Z) (c : ascii) : bool :=
  match digit_of c with
  | Some d => (d <? radix)%Z
  | None => false
  end.

Definition digit_val (c : ascii) : Z :=
  match digit_of c with Some d => d | None => 0%Z end.

(** Digits read most significant first. *)
Definition digits_value (radix : Z) (ds : list ascii) : Z :=
  fold_left (fun acc c => (radix * acc + digit_val c)%Z) ds 0%Z.

(** The longest prefix of characters satisfying [p], and the rest. *)
Fixpoint span (p : ascii -> bool) (cs : list ascii) : list ascii * list ascii :=
  match cs with
  | c :: cs' =>
      if p c then let '(a, b) := span p cs' in (c :: a, b) else ([], cs)
  | [] => ([], [])
  end.

Fixpoint trim_start (cs : list ascii) : list ascii :=
  match cs with
  | c :: cs' => if is_whitespace c then trim_start cs' else cs
  | [] => []
  end.

Definition trim (cs : list ascii) : list ascii :=
  List.rev (trim_start (List.rev (trim_start cs))).

Definition chars (s : string) : list ascii := list_ascii_of_string s.

Definition ascii_in (c : ascii) (s : string) : bool :=
  existsb (Ascii.eqb c) (chars s).

Definition list_ascii_eqb (a b : list ascii) : bool :=
  String.eqb (string_of_list_ascii a) (string_of_list_ascii b).

(** ** StringToNumber, the conversion behind [Number(string)] *)

(** ExponentPart_opt: nothing, or [e]/[E], an optional sign and at least one
    digit, up to the end of the input. *)
Definition ExponentPart (cs : list ascii) : option Z :=
  match cs with
  | [] => Some 0%Z
  | c :: r =>
      if ascii_in c "eE" then
        let '(negative, ds) :=
          match r with
          | "-"%char :: ds => (true, ds)
          | "+"%char :: ds => (false, ds)
          | _ => (false, r)
          end in
        match ds with
        | [] => None
        | _ =>
            if forallb is_digit ds
            then Some (if negative then - digits_value 10 ds
                       else digits_value 10 ds)%Z
            else None
        end
      else None
  end.

(** StrUnsignedDecimalLiteral: [Infinity], or digits with an optional
    fraction and exponent; [None] when the input is not one.  The result
    is [None] for Infinity and the magnitude otherwise. *)
Definition StrUnsignedDecimalLiteral (cs : list ascii) : option (option Q) :=
  if list_ascii_eqb cs (chars "Infinity") then Some None
  else
    let '(ip, r1) := span is_digit cs in
    let '(fp, r2) :=
      match r1 with
      | "."%char :: r => span is_digit r
      | _ => ([], r1)
      end in
    match ip ++ fp with
    | [] => None
    | ds =>
        match ExponentPart r2 with
        | Some e =>
            Some (Some (decimal_value (digits_value 10 ds)
                                      (e - Z.of_nat (List.length fp))))
        | None => None
        end
    end.

(** NonDecimalIntegerLiteral: [0x], [0o] or [0b] (either case) and at least
    one digit of that radix. *)
Definition NonDecimalIntegerLiteral (cs : list ascii) : option Z :=
  match cs with
  | "0"%char :: p :: ((_ :: _) as ds) =>
      let radix :=
        if ascii_in p "xX" then Some 16%Z
        else if ascii_in p "oO" then Some 8%Z
        else if ascii_in p "bB" then Some 2%Z
        else None in
      match radix with
      | Some r =>
          if forallb (is_radix_digit r) ds then Some (digits_value r ds)
          else None
      | None => None
      end
  | _ => None
  end.

Definition signed (negative : bool) (v : option (option Q)) : JSNumber :=
  match v with
  | None => NaN
  | Some None => Infinity negative
  | Some (Some q) => Finite negative q
  end.

Definition StringToNumber (s : string) : JSNumber :=
  match trim (chars s) with
  | [] => Finite false 0
  | cs =>
      match NonDecimalIntegerLiteral cs with
      | Some n => Finite false (n # 1)
      | None =>
          match cs with
          | "-"%char :: r => signed true (StrUnsignedDecimalLiteral r)
          | "+"%char :: r => signed false (StrUnsignedDecimalLiteral r)
          | _ => signed false (StrUnsignedDecimalLiteral cs)
          end
      end
  end.

(** ** parseInt with the radix left out *)

Definition parseInt (s : string) : JSNumber :=
  let cs := trim_start (chars s) in
  let '(negative, cs) :=
    match cs with
    | "-"%char :: r => (true, r)
    | "+"%char :: r => (false, r)
    | _ => (false, cs)
    end in
  let '(radix, cs) :=
    match cs with
    | "0"%char :: p :: r => if ascii_in p "xX" then (16%Z, r) else (10%Z, cs)
    | _ => (10%Z, cs)
    end in
  match fst (span (is_radix_digit radix) cs) with
  | [] => NaN
  | ds => Finite negative (digits_value radix ds # 1)
  end.

End JS.

Import JS.

(* ================================================================== *)
(** * The paged listing of [ServiceBusManagementClient] *)
(* ================================================================== *)

Module Paging.

(** A continuation token or marker: [string | undefined] by its type;
    [null] is what [searchParams.get] returns for a parameter the next link
    does not have. *)
Inductive Token : Type :=
| TUndefined
| TNull
| TString (s : string).

(** ToBoolean on a marker, as in [while (marker)] and [!url]. *)
Definition truthy (t : Token) : bool :=
  match t with
  | TString s => negb (s =? "")
  | _ => false
  end.

(** [Number(marker)] *)
Definition Number (t : Token) : JSNumber :=
  match t with
  | TUndefined => NaN
  | TNull => Finite false 0
  | TString s => StringToNumber s
  end.

(** The text of a token inside a template literal. *)
Definition render (t : Token) : string :=
  match t with
  | TUndefined => "undefined"
  | TNull => "null"
  | TString s => s
  end.

(** [marker ?? "0"] *)
Definition or_zero (t : Token) : string :=
  match t with
  | TString s => s
  | _ => "0"
  end.

Inductive Exn : Type :=
| Error (message : string)
| TypeError (message : string)
| RestError (message code : string) (statusCode : Z).

(** [RestError.PARSE_ERROR] *)
Definition PARSE_ERROR : string := "PARSE_ERROR".

(** Modelled from the spec: [Constants.XML_METADATA_MARKER] of
    [util/constants], which is not part of the sources at hand; the wire
    contract of the design document names the parameter [$skip]. *)
Definition XML_METADATA_MARKER : string := "$".

(** [ListRequestOptions]; an absent field is [None]. *)
Record ListRequestOptions : Type := {
  maxCount : option JSNumber;
  skip : option JSNumber
}.

(** The [queryParams] object [listResources] fills in: [$skip] when
    [options.skip] is truthy, then [$top] when [options.maxCount] is; an
    absent field is falsy. *)
Definition queryParams_of (options : ListRequestOptions)
  : list (string * JSNumber) :=
  match skip options with
  | Some n => if truthy_number n then [("$skip", n)] else []
  | None => []
  end
  ++
  match maxCount options with
  | Some n => if truthy_number n then [("$top", n)] else []
  | None => []
  end.

Section Types.

(** The raw records of a page and the entities decoded from them. *)
Variables Raw QueueProperties : Type.

(** [OperationOptions]: abort signal, tracing and request options, handed
    through to the transport untouched. *)
Variable OperationOptions : Type.

(** [response.parsedBody] as [buildListQueuesResponse] looks at it. *)
Inductive ParsedBody : Type :=
| BodyNullish
    (* undefined or null: reading a property of it throws *)
| BodyOther (nextLink : option string)
    (* any other value that is not an array *)
| BodyArray (entries : list Raw) (nextLink : option string).

Record HttpOperationResponse : Type := {
  status : Z;
  parsedBody : ParsedBody
}.

(** The GET request of [listResources]: the resource path and the query
    parameters handed to [getUrl], in insertion order.  A parameter is kept
    as the number whose [toString()] is sent. *)
Record WebResource : Type := {
  path : string;
  queryParams : list (string * JSNumber);
  operationOptions : OperationOptions
}.

(** [EntitiesResponse<QueueProperties>]: an array carrying two more
    properties. *)
Record EntitiesResponse : Type := {
  items : list QueueProperties;
  continuationToken : Token;
  _response : HttpOperationResponse
}.

(** [OperationOptions & Pick<PageSettings, "maxPageSize">] *)
Record PageOptions : Type := {
  maxPageSize : option JSNumber;
  operation_options : OperationOptions
}.

(** [PageSettings] *)
Record PageSettings : Type := {
  settings_continuationToken : Token;
  settings_maxPageSize : option JSNumber
}.

(** What the client is built on: the entity decoder, the URL parser and the
    transport. *)
Class Collaborators : Type := {
  (** [buildQueue] of the queue serializer, which gives the entity or
      [undefined], or throws: [inr None] is [undefined] and [inl e] the
      exception thrown. *)
  buildQueue : Raw -> Exn + option QueueProperties;
  (** [parseURL(url).searchParams] as the list of its name and value pairs
      in order; [None] when [parseURL] throws. *)
  parseURL : string -> option (list (string * string));
  (** [executeAtomXmlOperation]: the transport, which answers or throws. *)
  executeAtomXmlOperation : WebResource -> Exn + HttpOperationResponse
}.

End Types.

Arguments BodyNullish {Raw}.
Arguments BodyOther {Raw} nextLink.
Arguments BodyArray {Raw} entries nextLink.
Arguments status {Raw} h.
Arguments parsedBody {Raw} h.
Arguments Build_HttpOperationResponse {Raw} status parsedBody.
Arguments path {OperationOptions} w.
Arguments queryParams {OperationOptions} w.
Arguments operationOptions {OperationOptions} w.
Arguments Build_WebResource {OperationOptions} path queryParams operationOptions.
Arguments items {Raw QueueProperties} e.
Arguments continuationToken {Raw QueueProperties} e.
Arguments _response {Raw QueueProperties} e.
Arguments Build_EntitiesResponse {Raw QueueProperties} items continuationToken _response.
Arguments maxPageSize {OperationOptions} p.
Arguments operation_options {OperationOptions} p.
Arguments Build_PageOptions {OperationOptions} maxPageSize operation_options.
Arguments buildQueue {Raw QueueProperties OperationOptions Collaborators} raw.
Arguments parseURL {Raw QueueProperties OperationOptions Collaborators} url.
Arguments executeAtomXmlOperation
  {Raw QueueProperties OperationOptions Collaborators} webResource.

(** What [next()] on a generator resolves to, or the exception it rejects
    with. *)
Inductive IteratorResult (A : Type) : Type :=
| Value (value : A)
| Finished
| Thrown (e : Exn).
Arguments Value {A} value.
Arguments Finished {A}.
Arguments Thrown {A} e.

Section Client.

Context {Raw QueueProperties OperationOptions : Type}.
Context {collaborators : Collaborators Raw QueueProperties OperationOptions}.

Local Notation "'HttpOperationResponse'" := (HttpOperationResponse Raw).
Local Notation "'WebResource'" := (WebResource OperationOptions).
Local Notation "'EntitiesResponse'" := (EntitiesResponse Raw QueueProperties).
Local Notation "'PageOptions'" := (PageOptions OperationOptions).

(** ** Computations that issue requests

    A computation takes the log of the requests issued so far and returns
    its result, or the exception thrown, with the log it leaves. *)

Definition M (A : Type) : Type :=
  list WebResource -> (Exn + A) * list WebResource.

Definition ret {A} (a : A) : M A := fun log => (inr a, log).

Definition bind {A B} (m : M A) (k : A -> M B) : M B :=
  fun log =>
    match m log with
    | (inr a, log') => k a log'
    | (inl e, log') => (inl e, log')
    end.

Definition lift {A} (r : Exn + A) : M A := fun log => (r, log).

Notation "x <- m ;; k" := (bind m (fun x => k))
  (at level 61, m at next level, right associativity).

(** [searchParams.get(name)] *)
Fixpoint searchParams_get (name : string) (ps : list (string * string)) : Token :=
  match ps with
  | (k, v) :: ps' => if k =? name then TString v else searchParams_get name ps'
  | [] => TNull
  end.

(** The message of the error thrown inside ends with the text of the cause,
    which is left out here; the caller replaces the error anyway. *)
Definition getMarkerFromNextLinkUrl (url : option string) : Exn + Token :=
  match url with
  | None => inr TUndefined
  | Some u =>
      if u =? "" then inr TUndefined
      else
        match parseURL u with
        | Some ps => inr (searchParams_get (XML_METADATA_MARKER ++ "skip") ps)
        | None =>
            inl (Error ("Unable to parse the '" ++ XML_METADATA_MARKER
                        ++ "skip' from the next-link in the response "))
        end
  end.

(** The loop of [buildListQueuesResponse] over the raw array: the entities
    pushed, or the exception of the first record on which [buildQueue]
    throws, which leaves the loop. *)
Fixpoint decode_all (raws : list Raw) : Exn + list QueueProperties :=
  match raws with
  | raw :: raws' =>
      match buildQueue raw with
      | inl e => inl e
      | inr (Some queue) =>
          match decode_all raws' with
          | inr queues => inr (queue :: queues)
          | inl e => inl e
          end
      | inr None => decode_all raws'
      end
  | [] => inr []
  end.

(** The body of the [try] block of [buildListQueuesResponse]: the next
    marker is read first, then the body is checked to be an array, then the
    records are decoded; each of the three may throw.  The texts of the two
    [TypeError]s are indicative (the first is the engine's, the second
    starts with the rendering of the body); the [catch] block drops them. *)
Definition buildListQueuesResponse_try (response : HttpOperationResponse)
  : Exn + EntitiesResponse :=
  match parsedBody response with
  | BodyNullish => inl (TypeError "Cannot read property 'nextLink' of undefined")
  | BodyOther nextLink =>
      match getMarkerFromNextLinkUrl nextLink with
      | inl e => inl e
      | inr _ => inl (TypeError " was expected to be of type Array")
      end
  | BodyArray rawQueueArray nextLink =>
      match getMarkerFromNextLinkUrl nextLink with
      | inl e => inl e
      | inr nextMarker =>
          match decode_all rawQueueArray with
          | inl e => inl e
          | inr queues =>
              inr {| items := queues;
                     continuationToken := nextMarker;
                     _response := response |}
          end
      end
  end.

(** The [RestError] of the [catch] block. *)
Definition parse_error (response : HttpOperationResponse) : Exn :=
  RestError
    "Error occurred while parsing the response body - cannot form a list of queues using the response from the service."
    PARSE_ERROR (status response).

Definition buildListQueuesResponse (response : HttpOperationResponse)
  : Exn + EntitiesResponse :=
  match buildListQueuesResponse_try response with
  | inr listQueuesResponse => inr listQueuesResponse
  | inl _ => inl (parse_error response)
  end.

Definition throwIfInvalidContinuationToken (token : Token) : Exn + unit :=
  let valid :=
    match token with
    | TUndefined => true
    | TString s => ge_zero (Number token)
    | TNull => false
    end in
  if valid then inr tt
  else inl (Error ("Invalid continuationToken " ++ render token ++ " provided")).

(** [listResources]: builds the query and hands the request to the
    transport; what the transport throws is thrown on. *)
Definition listResources (name : string) (options : ListRequestOptions)
  (operation : OperationOptions) : M HttpOperationResponse :=
  fun log =>
    let webResource :=
      {| path := name; queryParams := queryParams_of options;
         operationOptions := operation |} in
    (executeAtomXmlOperation webResource, log ++ [webResource]).

Definition listQueues (options : ListRequestOptions)
  (operation : OperationOptions) : M EntitiesResponse :=
  response <- listResources "$Resources/Queues" options operation ;;
  lift (buildListQueuesResponse response).

(** ** The async generators

    A generator is the state it is suspended in; [next] runs it to its next
    [yield], to its end or to the exception it throws. *)

(** [listQueuesPage]: not yet started, suspended at its [yield] with
    [marker] already advanced, or completed. *)
Inductive PageGenerator : Type :=
| PageStart (marker : Token) (options : PageOptions)
| PageYielded (marker : Token) (options : PageOptions)
| PageCompleted.

(** The object literal [{ skip: Number(marker), maxCount:
    options.maxPageSize, ...options }]; the options spread over it have
    neither field. *)
Definition list_options (marker : Token) (options : PageOptions)
  : ListRequestOptions :=
  {| skip := Some (Number marker); maxCount := maxPageSize options |}.

(** One round of the [do ... while] loop, up to the [yield]. *)
Definition listQueuesPage_round (marker : Token) (options : PageOptions)
  (log : list WebResource)
  : IteratorResult EntitiesResponse * PageGenerator * list WebResource :=
  match listQueues (list_options marker options)
                   (operation_options options) log with
  | (inr listResponse, log') =>
      (Value listResponse,
       PageYielded (continuationToken listResponse) options, log')
  | (inl e, log') => (Thrown e, PageCompleted, log')
  end.

Definition listQueuesPage_next (g : PageGenerator) (log : list WebResource)
  : IteratorResult EntitiesResponse * PageGenerator * list WebResource :=
  match g with
  | PageStart marker options => listQueuesPage_round marker options log
  | PageYielded marker options =>
      if truthy marker then listQueuesPage_round marker options log
      else (Finished, PageCompleted, log)
  | PageCompleted => (Finished, PageCompleted, log)
  end.

(** [listQueuesAll]: the page generator it iterates and what is left of
    the segment [yield*] is delegating to. *)
Record AllGenerator : Type := {
  segments : PageGenerator;
  segment : list QueueProperties
}.

Definition listQueuesAll (options : OperationOptions) : AllGenerator :=
  {| segments := PageStart TUndefined
                   {| maxPageSize := None; operation_options := options |};
     segment := [] |}.

(** [next] on [listQueuesAll] fetches pages until one has an item to yield;
    [fuel] bounds the pages fetched by one call, and [None] says the call
    has not returned within it. *)
Fixpoint listQueuesAll_next (fuel : nat) (g : AllGenerator)
  (log : list WebResource)
  : option (IteratorResult QueueProperties) * AllGenerator * list WebResource :=
  match segment g with
  | queue :: rest =>
      (Some (Value queue), {| segments := segments g; segment := rest |}, log)
  | [] =>
      match fuel with
      | O => (None, g, log)
      | S fuel' =>
          match listQueuesPage_next (segments g) log with
          | (Value page, pages', log') =>
              listQueuesAll_next fuel'
                {| segments := pages'; segment := items page |} log'
          | (Finished, pages', log') =>
              (Some Finished, {| segments := pages'; segment := [] |}, log')
          | (Thrown e, pages', log') =>
              (Some (Thrown e), {| segments := pages'; segment := [] |}, log')
          end
      end
  end.

(** [getQueues]: the iterator returned is [listQueuesAll(options)], and its
    [byPage] validates the token and creates a page generator. *)
Definition getQueues (options : OperationOptions) : AllGenerator :=
  listQueuesAll options.

Definition byPage (options : OperationOptions) (settings : PageSettings)
  : M PageGenerator :=
  _ <- lift (throwIfInvalidContinuationToken
               (settings_continuationToken settings)) ;;
  ret (PageStart (settings_continuationToken settings)
         {| maxPageSize := settings_maxPageSize settings;
            operation_options := options |}).

(** ** Consuming an iterator with [for await] *)

Inductive Outcome : Type :=
| Completed
| Failed (e : Exn)
| OutOfFuel.

(** [for await (const page of pages) ...]: the pages yielded, how the loop
    ended and the requests issued. *)
Fixpoint forAwaitPages (fuel : nat) (g : PageGenerator) (log : list WebResource)
  : list EntitiesResponse * Outcome * list WebResource :=
  match fuel with
  | O => ([], OutOfFuel, log)
  | S fuel' =>
      match listQueuesPage_next g log with
      | (Value page, g', log') =>
          let '(rest, outcome, log'') := forAwaitPages fuel' g' log' in
          (page :: rest, outcome, log'')
      | (Finished, _, log') => ([], Completed, log')
      | (Thrown e, _, log') => ([], Failed e, log')
      end
  end.

(** What [for await] does with the result of a [next()]: it takes the item
    and goes on, or ends. *)
Definition resume
  (continue : AllGenerator -> list WebResource ->
              list QueueProperties * Outcome * list WebResource)
  (r : option (IteratorResult QueueProperties) * AllGenerator
       * list WebResource)
  : list QueueProperties * Outcome * list WebResource :=
  match r with
  | (Some (Value queue), g', log') =>
      let '(rest, outcome, log'') := continue g' log' in
      (queue :: rest, outcome, log'')
  | (Some Finished, _, log') => ([], Completed, log')
  | (Some (Thrown e), _, log') => ([], Failed e, log')
  | (None, _, log') => ([], OutOfFuel, log')
  end.

(** [for await (const queue of iter) ...] *)
Fixpoint forAwaitAll (fuel : nat) (g : AllGenerator) (log : list WebResource)
  : list QueueProperties * Outcome * list WebResource :=
  match fuel with
  | O => ([], OutOfFuel, log)
  | S fuel' => resume (forAwaitAll fuel') (listQueuesAll_next fuel g log)
  end.

(** ** Two iterators side by side *)

(** [n] calls of [next()] on one iterator: what each resolved to. *)
Fixpoint alone (fuel n : nat) (g : AllGenerator) (log : list WebResource)
  : list (option (IteratorResult QueueProperties)) * list WebResource :=
  match n with
  | O => ([], log)
  | S n' =>
      let '(r, g', log') := listQueuesAll_next fuel g log in
      let '(rs, log'') := alone fuel n' g' log' in
      (r :: rs, log'')
  end.

(** The iterators [g1] and [g2] consumed in turn, [next()] being called on
    [g1] where the schedule says [true] and on [g2] where it says [false]:
    what the calls on each resolved to. *)
Fixpoint interleaved (fuel : nat) (schedule : list bool)
  (g1 g2 : AllGenerator) (log : list WebResource)
  : list (option (IteratorResult QueueProperties))
    * list (option (IteratorResult QueueProperties)) * list WebResource :=
  match schedule with
  | [] => ([], [], log)
  | true :: schedule' =>
      let '(r, g1', log') := listQueuesAll_next fuel g1 log in
      let '(rs1, rs2, log'') := interleaved fuel schedule' g1' g2 log' in
      (r :: rs1, rs2, log'')
  | false :: schedule' =>
      let '(r, g2', log') := listQueuesAll_next fuel g2 log in
      let '(rs1, rs2, log'') := interleaved fuel schedule' g1 g2' log' in
      (rs1, r :: rs2, log'')
  end.

End Client.

End Paging.

(* ================================================================== *)
(** * Settling a received message after its receiver is closed *)
(* ================================================================== *)

Module Settlement.

(** Modelled from the spec: the enum [DispositionType] of
    [src/serviceBusMessage.ts], which is not part of the sources at hand;
    the test-suite uses its members [complete], [abandon], [defer] and
    [deadletter] as the verb of the error text. *)
Inductive DispositionType : Type :=
| complete
| abandon
| defer
| deadletter.

Definition verb (d : DispositionType) : string :=
  match d with
  | complete => "complete"
  | abandon => "abandon"
  | defer => "defer"
  | deadletter => "deadletter"
  end.

(** The kinds of a rejected outcome in the design document, and the one of
    the test-suite's [renewLock] error, which is none of them. *)
Inductive Kind : Type :=
| LinkSevered
| LockLost
| AlreadySettled
| Transport
| InvalidOperation.

Record Rejection : Type := {
  kind : Kind;
  message : string
}.

(** The states of a received message that the transport tells apart. *)
Inductive State : Type :=
| Locked
| Settled
| LockExpired.

(** A received message with what its operations read: whether its entity
    uses sessions, what [isLinkOpen()] answers for the link that delivered
    it, the state of its lock and [lockedUntilUtc] in milliseconds. *)
Record ReceivedMessage : Type := {
  usesSessions : bool;
  linkOpen : bool;
  state : State;
  lockedUntilUtc : Z
}.

Definition with_state (s : State) (m : ReceivedMessage) : ReceivedMessage :=
  {| usesSessions := usesSessions m; linkOpen := linkOpen m;
     state := s; lockedUntilUtc := lockedUntilUtc m |}.

(** The text the test-suite expects from a settlement on a closed link. *)
Definition link_severed (v : string) : Rejection :=
  {| kind := LinkSevered;
     message := "Failed to " ++ v ++
       " the message as the AMQP link with which the message was received is no longer alive." |}.

(** The text the test-suite expects from [renewLock] on a session. *)
Definition no_lock_in_sessions : Rejection :=
  {| kind := InvalidOperation;
     message := "Invalid operation on the message, message lock doesn't exist when dealing with sessions" |}.

(** Modelled from the spec: the transport's answer to a forwarded
    disposition.  A locked message becomes settled; settling a settled
    message raises the already-settled failure; an expired lock is lost. *)
Definition forward_disposition (d : DispositionType) (m : ReceivedMessage)
  : (Rejection + unit) * ReceivedMessage :=
  match state m with
  | Locked => (inr tt, with_state Settled m)
  | Settled =>
      (inl {| kind := AlreadySettled;
              message := "The message has already been settled." |}, m)
  | LockExpired =>
      (inl {| kind := LockLost;
              message := "The lock supplied is invalid." |}, m)
  end.

(** Modelled from the spec: the lock duration of the entity, by which a
    renewal extends the lock; the design document only has it positive. *)
Definition lockDuration : Z := 60000.

(** Modelled from the spec: the transport's answer to a forwarded renewal. *)
Definition forward_renewal (m : ReceivedMessage)
  : (Rejection + Z) * ReceivedMessage :=
  match state m with
  | Locked =>
      let renewed := (lockedUntilUtc m + lockDuration)%Z in
      (inr renewed,
       {| usesSessions := usesSessions m; linkOpen := linkOpen m;
          state := Locked; lockedUntilUtc := renewed |})
  | Settled =>
      (inl {| kind := AlreadySettled;
              message := "The message has already been settled." |}, m)
  | LockExpired =>
      (inl {| kind := LockLost;
              message := "The lock supplied is invalid." |}, m)
  end.

(** Modelled from the spec: the disposition methods [complete()],
    [abandon()], [defer()] and [deadLetter()] of [ReceivedMessageWithLock]
    ([src/serviceBusMessage.ts], not part of the sources at hand): the
    guard of the design document, which fails at once when the link is
    closed and the entity uses sessions, and forwards the call otherwise. *)
Definition dispose (d : DispositionType) (m : ReceivedMessage)
  : (Rejection + unit) * ReceivedMessage :=
  if negb (linkOpen m) && usesSessions m
  then (inl (link_severed (verb d)), m)
  else forward_disposition d m.

(** Modelled from the spec: [renewLock()] as the design document has it,
    blocked by a closed link whatever the entity. *)
Definition renewLock_as_specified (m : ReceivedMessage)
  : (Rejection + Z) * ReceivedMessage :=
  if negb (linkOpen m)
  then (inl (link_severed "renewLock"), m)
  else forward_renewal m.

(** Modelled from the spec: [renewLock()] of [ReceivedMessageWithLock], not
    part of the sources at hand.  Where the design document and the
    test-suite of the sources disagree, this definition follows the
    test-suite: [renewLock()] throws for a session-bound message, with the
    text of [no_lock_in_sessions], and is forwarded for any other message,
    open link or not. *)
Definition renewLock (m : ReceivedMessage)
  : (Rejection + Z) * ReceivedMessage :=
  if usesSessions m
  then (inl no_lock_in_sessions, m)
  else forward_renewal m.

(** The operations of a message that the test-suite calls. *)
Record Operations : Type := {
  op_dispose : DispositionType -> ReceivedMessage ->
               (Rejection + unit) * ReceivedMessage;
  op_renewLock : ReceivedMessage -> (Rejection + Z) * ReceivedMessage
}.

Definition as_tested : Operations :=
  {| op_dispose := dispose; op_renewLock := renewLock |}.

Definition as_specified : Operations :=
  {| op_dispose := dispose; op_renewLock := renewLock_as_specified |}.

(** ** The test-suite [backupMessageSettlement.spec.ts]

    Each test sends and receives one message, closes the receiver, calls
    the operation inside [try], and asserts on the error caught.  The
    definitions below embed that part of each test: the [try] and [catch]
    blocks and the assertion on [errorWasThrown].  Their value is whether
    those assertions hold.  Each test has more to it, which needs the
    entity and is not embedded: [sendReceiveMsg] asserts on the message
    received, and after the assertion on [errorWasThrown] the test opens a
    new receiver, receives and completes what the entity still holds, and
    counts what [testPeekMsgsLength] peeks.  So a test that passes has the
    value [true] here, and a value [false] here means that the test fails;
    the value [true] alone does not mean that the test passes. *)

Section Tests.

Variable ops : Operations.

(** [sendReceiveMsg]: a message just received in peek-lock mode. *)
Definition sendReceiveMsg (sessions : bool) : ReceivedMessage :=
  {| usesSessions := sessions; linkOpen := true; state := Locked;
     lockedUntilUtc := 0 |}.

(** [await receiver.close()] *)
Definition receiver_close (m : ReceivedMessage) : ReceivedMessage :=
  {| usesSessions := usesSessions m; linkOpen := false; state := state m;
     lockedUntilUtc := lockedUntilUtc m |}.

(** The part [testComplete], [testAbandon], [testDefer] and
    [testDeadletter] share, from [receiver.close()] to the assertion on
    [errorWasThrown]: the operation and its two assertions. *)
Definition testDisposition (d : DispositionType) (sessions : bool) : bool :=
  let msg := receiver_close (sendReceiveMsg sessions) in
  let '(errorWasThrown, expectedError) :=
    match op_dispose ops d msg with
    | (inr _, _) => (false, true)
    | (inl err, _) => (true, message err =? message (link_severed (verb d)))
    end in
  expectedError &&
  (if sessions then Bool.eqb errorWasThrown true
   else Bool.eqb errorWasThrown false).

Definition testComplete : bool -> bool := testDisposition complete.
Definition testAbandon : bool -> bool := testDisposition abandon.
Definition testDefer : bool -> bool := testDisposition defer.
Definition testDeadletter : bool -> bool := testDisposition deadletter.

(** [testRenewLock], from [receiver.close()] to the assertion on
    [errorWasThrown]: inside [try], the renewal, the assertion that the
    lock was extended and [complete()]; a failed assertion throws too. *)
Definition testRenewLock (sessions : bool) : bool :=
  let msg := receiver_close (sendReceiveMsg sessions) in
  let expected := message no_lock_in_sessions in
  let lockedUntilBeforeRenewlock := lockedUntilUtc msg in
  let '(errorWasThrown, expectedError) :=
    match op_renewLock ops msg with
    | (inr lockedUntilAfterRenewlock, msg') =>
        if (lockedUntilAfterRenewlock >? lockedUntilBeforeRenewlock)%Z
        then
          match op_dispose ops complete msg' with
          | (inr _, _) => (false, true)
          | (inl err, _) => (true, message err =? expected)
          end
        else (true, "MessageLock did not get renewed!" =? expected)
    | (inl err, _) => (true, message err =? expected)
    end in
  expectedError &&
  (if sessions then Bool.eqb errorWasThrown true
   else Bool.eqb errorWasThrown false).

End Tests.

End Settlement.

(* ================================================================== *)
(** * The service the client lists from, and the design document's words *)
(* ================================================================== *)

Module Service.

Import Paging.

(** The decimal numeral of a natural number, as a service writes an offset
    into a next link. *)
Definition decimal (n : nat) : string :=
  DecimalString.NilEmpty.string_of_uint (Nat.to_uint n).

(** The value of a query parameter of a request. *)
Fixpoint param (name : string) (ps : list (string * JSNumber))
  : option JSNumber :=
  match ps with
  | (k, v) :: ps' => if k =? name then Some v else param name ps'
  | [] => None
  end.

(** The offset a request asks for: zero without [$skip], and the value of
    [$skip] when it is a natural number.  It is read from the exact
    magnitude of the number, which is the number sent for offsets up to
    [2^53], binary64 holding these exactly; past [2^53] the number sent is
    the one of [skip_sent] below. *)
Definition offset_of {OperationOptions : Type}
  (w : WebResource OperationOptions) : option nat :=
  match param "$skip" (queryParams w) with
  | None => Some O
  | Some (Finite false q) =>
      if Pos.eqb (Qden q) 1 && (0 <=? Qnum q)%Z
      then Some (Z.to_nat (Qnum q)) else None
  | Some _ => None
  end.

(** The [$skip] a request carries on the wire, [options.skip.toString()]:
    the integer that the binary64 value of the number is, when it is one;
    zero without [$skip]. *)
Definition skip_sent {OperationOptions : Type}
  (w : WebResource OperationOptions) : option Z :=
  match param "$skip" (queryParams w) with
  | None => Some 0%Z
  | Some (Finite false q) =>
      match binary64 q with
      | Some v => if Pos.eqb (Qden v) 1 then Some (Qnum v) else None
      | None => None
      end
  | Some _ => None
  end.

(** A service that holds the collection [coll] and serves it in pages of
    [P] records, after the wire contract of the design document.  To a
    request for the queues at offset [k] that names no page size it answers
    with the records [k .. k+P-1] and a next link whose [$skip] is [k+P] in
    decimal while records remain past the page, and with no marker
    otherwise. *)
Definition serves {Raw QueueProperties OperationOptions : Type}
  (c : Collaborators Raw QueueProperties OperationOptions)
  (coll : list Raw) (P : nat) : Prop :=
  forall (w : WebResource OperationOptions) (k : nat),
    path w = "$Resources/Queues" ->
    offset_of w = Some k ->
    param "$top" (queryParams w) = None ->
    exists st nextLink marker,
      executeAtomXmlOperation w =
        inr {| status := st;
               parsedBody := BodyArray (firstn P (skipn k coll)) nextLink |}
      /\ getMarkerFromNextLinkUrl nextLink = inr marker
      /\ (if (k + P <? List.length coll)%nat
          then marker = TString (decimal (k + P))
          else truthy marker = false).

(** The marker that stands for the offset [k]: none at the start of the
    collection, the decimal numeral of [k] further on. *)
Definition marker_at (k : nat) : Token :=
  match k with
  | O => TUndefined
  | S _ => TString (decimal k)
  end.

(** The tokens of a scan from offset [k] on: each names an offset past the
    one before, up to a last one that is absent. *)
Fixpoint advancing (k : nat) (ts : list Token) : Prop :=
  match ts with
  | [] => True
  | t :: ts' =>
      (truthy t = false /\ ts' = [])
      \/ (exists j, (k < j)%nat /\ t = TString (decimal j)
                    /\ ts' <> [] /\ advancing j ts')
  end.

(** The tokens of a scan from offset [k] on that has not come to its last
    page: each names an offset past the one before. *)
Fixpoint climbing (k : nat) (ts : list Token) : Prop :=
  match ts with
  | [] => True
  | t :: ts' => exists j, (k < j)%nat /\ t = TString (decimal j) /\ climbing j ts'
  end.

(** The request one round of [listQueuesPage] issues for [marker]. *)
Definition page_request {OperationOptions : Type} (marker : Token)
  (options : PageOptions OperationOptions) : WebResource OperationOptions :=
  {| path := "$Resources/Queues";
     queryParams := queryParams_of (list_options marker options);
     operationOptions := operation_options options |}.

(** The number of pages of [P] records that hold [N] records. *)
Definition pages_of (N P : nat) : nat := (N + P - 1) / P.

(** *** A service to run the client against *)

Fixpoint strip_prefix (p s : string) : option string :=
  match p, s with
  | EmptyString, _ => Some s
  | String a p', String b s' =>
      if Ascii.eqb a b then strip_prefix p' s' else None
  | String _ _, EmptyString => None
  end.

Definition nextLink_prefix : string :=
  "https://sb.example.net/$Resources/Queues?api-version=2017-04&$skip=".

(** A URL parser for the next links of the services below: it throws on a
    string that is not an absolute https URL. *)
Definition parse_nextLink (url : string) : option (list (string * string)) :=
  match strip_prefix nextLink_prefix url with
  | Some value => Some [("api-version", "2017-04"); ("$skip", value)]
  | None =>
      match strip_prefix "https://" url with
      | Some _ => Some []
      | None => None
      end
  end.

(** The service of [serves]: records are natural numbers, and a record
    decodes unless [malformed] says otherwise. *)
Definition paged_service (malformed : nat -> bool) (coll : list nat) (P : nat)
  : Collaborators nat nat unit :=
  {| buildQueue := fun raw => inr (if malformed raw then None else Some raw);
     parseURL := parse_nextLink;
     executeAtomXmlOperation := fun w =>
       match offset_of w with
       | Some k =>
           inr {| status := 200;
                  parsedBody :=
                    BodyArray (firstn P (skipn k coll))
                      (if (k + P <? List.length coll)%nat
                       then Some (nextLink_prefix ++ decimal (k + P))%string
                       else None) |}
       | None => inl (RestError "Bad Request" "ServiceError" 400)
       end |}.

(** A service that answers every request with the page [body] and the next
    link [nextLink]. *)
Definition fixed_service (body : list nat) (nextLink : option string)
  : Collaborators nat nat unit :=
  {| buildQueue := fun raw => inr (if (raw =? 0)%nat then None else Some raw);
     parseURL := parse_nextLink;
     executeAtomXmlOperation := fun _ =>
       inr {| status := 200; parsedBody := BodyArray body nextLink |} |}.

(** The exception of a decoder that refuses a record. *)
Definition refused : Exn := TypeError "Cannot read property 'QueueName' of null".

(** The service of [paged_service] with a decoder that throws on the record
    [0] and decodes the others. *)
Definition refusing_service (coll : list nat) (P : nat)
  : Collaborators nat nat unit :=
  {| buildQueue := fun raw => if (raw =? 0)%nat then inl refused else inr (Some raw);
     parseURL := parse_nextLink;
     executeAtomXmlOperation :=
       executeAtomXmlOperation (Collaborators := paged_service (fun _ => false) coll P) |}.

(** ** The design document's words *)

(** "A non-negative integer string": one digit or more and nothing else. *)
Definition nonNegativeIntegerString (s : string) : bool :=
  match chars s with
  | [] => false
  | cs => forallb is_digit cs
  end.

(** "[skip = parseInt(marker ?? "0")] and [maxCount = pageSizeHint]" *)
Definition listPage_options_as_specified (marker : Token)
  (pageSizeHint : option JSNumber) : ListRequestOptions :=
  {| skip := Some (parseInt (or_zero marker)); maxCount := pageSizeHint |}.

(** A token "parses to an integer": the integer [Number] reads from it. *)
Definition token_integer (t : Token) : option Z :=
  match Number t with
  | Finite negative q =>
      if Pos.eqb (Qden q) 1
      then Some (if negative then - Qnum q else Qnum q)%Z
      else None
  | _ => None
  end.

(** "Consecutive continuation tokens are strictly increasing non-negative
    integers", over the tokens of a scan in order; the absent token of the
    last page is not one. *)
Fixpoint strictly_increasing (ts : list Token) : bool :=
  match ts with
  | t1 :: ((t2 :: _) as ts') =>
      (if truthy t2 then
         match token_integer t1, token_integer t2 with
         | Some a, Some b => (0 <=? a)%Z && (a <? b)%Z
         | _, _ => false
         end
       else true)
      && strictly_increasing ts'
  | _ => true
  end.

End Service.

(* ================================================================== *)
(** * Single entities, paths and the endpoint of the client *)
(* ================================================================== *)

Module Resources.

Import Paging.

(** [error.code]: a [RestError] has one, an [Error] or a [TypeError] has
    none. *)
Definition code_of (e : Exn) : option string :=
  match e with
  | RestError _ code _ => Some code
  | _ => None
  end.

(** The double quote of the error texts. *)
Definition quote : string := String "034"%char EmptyString.

(** The [RestError] [getResource] throws for an entity that is not there. *)
Definition not_found (name : string) : Exn :=
  RestError
    ("The messaging entity " ++ quote ++ name ++ quote
     ++ " being requested cannot be found.")
    "MessageEntityNotFoundError" 404.

Section Entity.

Context {Raw QueueProperties OperationOptions : Type}.
Context {collaborators : Collaborators Raw QueueProperties OperationOptions}.

(** [buildQueue(response.parsedBody)] on the body of a single entity: the
    entity, [undefined] ([None]), or the exception it throws. *)
Variable buildQueue_body : ParsedBody Raw -> Exn + option QueueProperties.

(** [QueueResponse]: [Object.assign(queue || {}, { _response: response })];
    [None] is the empty object. *)
Record QueueResponse : Type := {
  queue : option QueueProperties;
  queue_response : HttpOperationResponse Raw
}.

(** [getResource]: a GET of [getUrl(name)], and the 404 it makes up for a
    body that is [undefined], [null] or an empty array. *)
Definition getResource (name : string) (operation : OperationOptions)
  (log : list (WebResource OperationOptions))
  : (Exn + HttpOperationResponse Raw) * list (WebResource OperationOptions) :=
  let webResource :=
    {| path := name; queryParams := []; operationOptions := operation |} in
  match executeAtomXmlOperation webResource with
  | inl e => (inl e, log ++ [webResource])
  | inr response =>
      match parsedBody response with
      | BodyNullish => (inl (not_found name), log ++ [webResource])
      | BodyArray [] _ => (inl (not_found name), log ++ [webResource])
      | _ => (inr response, log ++ [webResource])
      end
  end.

Definition buildQueueResponse (response : HttpOperationResponse Raw)
  : Exn + QueueResponse :=
  match buildQueue_body (parsedBody response) with
  | inr queue => inr {| queue := queue; queue_response := response |}
  | inl _ =>
      inl (RestError
             "Error occurred while parsing the response body - cannot form a queue object using the response from the service."
             PARSE_ERROR (status response))
  end.

Definition getQueue (queueName : string) (operation : OperationOptions)
  (log : list (WebResource OperationOptions))
  : (Exn + QueueResponse) * list (WebResource OperationOptions) :=
  match getResource queueName operation log with
  | (inr response, log') => (buildQueueResponse response, log')
  | (inl e, log') => (inl e, log')
  end.

(** [queueExists]: [false] for the error with code
    [MessageEntityNotFoundError], any other error thrown on. *)
Definition queueExists (queueName : string) (operation : OperationOptions)
  (log : list (WebResource OperationOptions))
  : (Exn + bool) * list (WebResource OperationOptions) :=
  match getQueue queueName operation log with
  | (inr _, log') => (inr true, log')
  | (inl error, log') =>
      match code_of error with
      | Some code =>
          if code =? "MessageEntityNotFoundError" then (inr false, log')
          else (inl error, log')
      | None => (inl error, log')
      end
  end.

End Entity.

Arguments queue {Raw QueueProperties} q.
Arguments queue_response {Raw QueueProperties} q.

(** ** Paths *)

Definition getSubscriptionPath (topicName subscriptionName : string) : string :=
  topicName ++ "/Subscriptions/" ++ subscriptionName.

Definition getRulePath (topicName subscriptionName ruleName : string) : string :=
  topicName ++ "/Subscriptions/" ++ subscriptionName ++ "/Rules/" ++ ruleName.

(** A name without a slash. *)
Definition slash_free (s : string) : bool :=
  forallb (fun c => negb (Ascii.eqb c "/")) (JS.chars s).

(** ** The endpoint of the client *)

(** [s.endsWith(t)] *)
Fixpoint starts_with (t s : list ascii) : bool :=
  match t, s with
  | [], _ => true
  | a :: t', b :: s' => Ascii.eqb a b && starts_with t' s'
  | _ :: _, [] => false
  end.

Definition endsWith (s t : string) : bool :=
  starts_with (List.rev (JS.chars t)) (List.rev (JS.chars s)).

(** [this.endpointWithProtocol] as the constructor sets it. *)
Definition endpointWithProtocol (fullyQualifiedNamespace : string) : string :=
  if endsWith fullyQualifiedNamespace "/"
  then "sb://" ++ fullyQualifiedNamespace
  else "sb://" ++ fullyQualifiedNamespace ++ "/".

(** *** The first group of [Endpoint.match(pattern)]

    The pattern is, in turn: any characters as many as can be (dot, star),
    a colon and two slashes, and the group, which is any characters other
    than the slash as many as can be.  It has no flag, so the dot stands
    for any character but a line terminator; the match is tried from each
    index in turn, the dot-star taking as many characters as it can and
    giving them back one by one. *)

Definition is_line_terminator (c : ascii) : bool :=
  (JS.code c =? 10)%nat || (JS.code c =? 13)%nat.

(** The group: the longest run of characters other than the slash. *)
Fixpoint not_slashes (cs : list ascii) : list ascii :=
  match cs with
  | c :: cs' => if Ascii.eqb c "/" then [] else c :: not_slashes cs'
  | [] => []
  end.

(** The colon, the two slashes and the group matched at the start of
    [cs]: the group. *)
Fixpoint strip (t s : list ascii) : option (list ascii) :=
  match t, s with
  | [], _ => Some s
  | a :: t', b :: s' => if Ascii.eqb a b then strip t' s' else None
  | _ :: _, [] => None
  end.

Definition scheme_end (cs : list ascii) : option (list ascii) :=
  match strip (JS.chars "://") cs with
  | Some rest => Some (not_slashes rest)
  | None => None
  end.

(** The whole pattern matched at the start of [cs]: the dot-star first
    tries to take one more character, and failing that the rest of the
    pattern is matched here. *)
Fixpoint match_here (cs : list ascii) : option (list ascii) :=
  match cs with
  | c :: cs' =>
      if is_line_terminator c then scheme_end cs
      else
        match match_here cs' with
        | Some group => Some group
        | None => scheme_end cs
        end
  | [] => None
  end.

(** The first index at which the pattern matches. *)
Fixpoint match_endpoint (cs : list ascii) : option (list ascii) :=
  match match_here cs with
  | Some group => Some group
  | None =>
      match cs with
      | _ :: cs' => match_endpoint cs'
      | [] => None
      end
  end.

(** What the constructor keeps of where the namespace is. *)
Record Endpoints : Type := {
  endpoint : string;
  endpoint_with_protocol : string
}.

Definition endpoints_of (fullyQualifiedNamespace : string) : Endpoints :=
  {| endpoint := fullyQualifiedNamespace;
     endpoint_with_protocol := endpointWithProtocol fullyQualifiedNamespace |}.

(** The constructor given a connection string, from the [Endpoint] that
    [parseConnectionString] finds in it ([None] when it finds none). *)
Definition construct_from_connection_string (Endpoint : option string)
  : Exn + Endpoints :=
  match Endpoint with
  | None => inl (Error "Missing Endpoint in connection string.")
  | Some e =>
      match match_endpoint (JS.chars e) with
      | Some group => inr (endpoints_of (string_of_list_ascii group))
      | None => inl (Error "Endpoint in the connection string is not valid.")
      end
  end.

(** The constructor given a namespace and a token credential. *)
Definition construct_from_namespace (fullyQualifiedNamespace : string)
  : Endpoints :=
  endpoints_of fullyQualifiedNamespace.

End Resources.

(* ================================================================== *)
(** * Properties *)
(* ================================================================== *)

(** ** Numbers and numerals *)

Module JSFacts.

(** [!(x >= 0)] holds of [NaN] and of the negative numbers only. *)
Lemma ge_zero_false (x : JSNumber) :
  ge_zero x = false <-> isNaN x = true \/ lt_zero x = true.
Proof.
  destruct x as [|negative|negative q]; simpl.
  - intuition congruence.
  - destruct negative; simpl; intuition congruence.
  - destruct negative, (rounds_to_zero q); simpl; intuition congruence.
Qed.

Lemma rounds_to_zero_integer (z : Z) :
  (1 <= z)%Z -> rounds_to_zero (z # 1) = false.
Proof.
  intros Hz. unfold rounds_to_zero.
  destruct (Qle_bool (z # 1) (1 # 2 ^ 1075)) eqn:E; [|reflexivity].
  apply Qle_bool_iff in E. unfold Qle in E. cbn [Qnum Qden] in E.
  pose proof (Pos2Z.is_pos (2 ^ 1075)) as Hp.
  assert (Hne : (2 ^ 1075)%positive <> 1%positive).
  { intro H. apply (f_equal Pos.size_nat) in H. vm_compute in H. discriminate. }
  assert (2 <= Z.pos (2 ^ 1075))%Z by lia.
  nia.
Qed.

(** *** Rounding *)

Lemma Qred_integer (z : Z) : Qred (z # 1) = (z # 1)%Q.
Proof.
  unfold Qred.
  pose proof (Z.ggcd_gcd z 1) as Hg.
  pose proof (Z.ggcd_correct_divisors z 1) as Hd.
  destruct (Z.ggcd z 1) as [g [aa bb]]. cbn [fst snd] in *.
  rewrite Z.gcd_1_r in Hg. subst g. destruct Hd as [Ha Hb].
  rewrite Z.mul_1_l in Ha, Hb. subst. reflexivity.
Qed.

(** Binary64 holds the integers up to [2^53] exactly. *)
Lemma binary64_safe (z : Z) :
  (0 <= z <= 2 ^ 53)%Z -> binary64 (z # 1) = Some (z # 1)%Q.
Proof.
  intros [Hlo Hhi]. destruct z as [|a|a]; [reflexivity| |lia].
  assert (Hspec := Z.log2_spec (Zpos a) ltac:(lia)).
  assert (HL : (0 <= Z.log2 (Zpos a) <= 53)%Z).
  { split; [apply Z.log2_nonneg|].
    rewrite <- (Z.log2_pow2 53) by lia. now apply Z.log2_le_mono. }
  unfold binary64, floor_log2. cbn [Qnum Qden].
  change (Z.log2 1) with 0%Z. rewrite Z.sub_0_r.
  set (L := Z.log2 (Zpos a)) in *.
  replace (0 <=? L)%Z with true by (symmetry; apply Z.leb_le; lia).
  replace (Zpos a <? 2 ^ L * 1)%Z with false
    by (symmetry; apply Z.ltb_ge; lia).
  destruct (Z.eq_dec L 53) as [HL53|HL53].
  - assert (Zpos a = 2 ^ 53)%Z as Ha.
    { rewrite HL53 in Hspec. lia. }
    clear Hspec. subst L. rewrite HL53.
    injection Ha as ->. vm_compute. reflexivity.
  - destruct (Z.eq_dec L 52) as [HL52|HL52].
    + rewrite HL52 in Hspec |- *.
      change (Z.max (52 - 52) (-1074)) with 0%Z.
      change (0 <=? 0)%Z with true. cbv iota beta.
      change (2 ^ 0)%Z with 1%Z.
      rewrite !Z.mul_1_r, Zdiv_1_r, Zmod_1_r.
      change (2 * 0 ?= 1)%Z with Lt. cbv iota.
      replace (2 ^ 1024 <=? Zpos a)%Z with false; [reflexivity|].
      symmetry. apply Z.leb_gt.
      change (2 ^ Z.succ 52)%Z with (2 ^ 53)%Z in Hspec.
      assert (2 ^ 53 < 2 ^ 1024)%Z by (apply Z.pow_lt_mono_r; lia). lia.
    + assert (Hu : Z.max (L - 52) (-1074) = (L - 52)%Z) by lia.
      rewrite Hu.
      replace (0 <=? L - 52)%Z with false by (symmetry; apply Z.leb_gt; lia).
      cbv iota beta. rewrite Zdiv_1_r, Zmod_1_r.
      change (2 * 0 ?= 1)%Z with Lt. cbv iota.
      f_equal.
      assert (Hp : (0 < 2 ^ (- (L - 52)))%Z) by (apply Z.pow_pos_nonneg; lia).
      rewrite (Qred_complete _ (Zpos a # 1)).
      * apply Qred_integer.
      * unfold Qeq. cbn [Qnum Qden]. rewrite Z2Pos.id by exact Hp. lia.
Qed.

(** What binary64 does to numbers it does not hold: the neighbour of
    [2^53 + 1] is [2^53] and the one of a tenth is not a tenth; a magnitude
    of [2^-1075] rounds to zero, as [rounds_to_zero] has it, and the
    largest magnitudes round to the infinity. *)
Lemma binary64_examples :
  binary64 (9007199254740993 # 1) = Some (9007199254740992 # 1)%Q
  /\ binary64 (9007199254740995 # 1) = Some (9007199254740996 # 1)%Q
  /\ binary64 (1 # 10) = Some (3602879701896397 # 36028797018963968)%Q
  /\ binary64 (3 # 2) = Some (3 # 2)%Q
  /\ binary64 (1 # 2 ^ 1075) = Some (0 # 1)%Q
  /\ rounds_to_zero (1 # 2 ^ 1075) = true
  /\ binary64 ((2 ^ 1024 - 2 ^ 970) # 1) = None.
Proof. vm_compute. repeat split. Qed.

Lemma truthy_of_nat (n : nat) : (0 < n)%nat -> truthy_number (of_nat n) = true.
Proof.
  intros Hn. unfold of_nat, truthy_number.
  rewrite rounds_to_zero_integer; [reflexivity | lia].
Qed.

Lemma ge_zero_of_nat (n : nat) : ge_zero (of_nat n) = true.
Proof. reflexivity. Qed.

(** *** The conversions on some strings *)

Example Number_fraction : StringToNumber "1.5" = Finite false (3 # 2).
Proof. reflexivity. Qed.

Example Number_exponent : StringToNumber "1e3" = Finite false (1000 # 1).
Proof. reflexivity. Qed.

Example Number_hex : StringToNumber "0x1F" = Finite false (31 # 1).
Proof. reflexivity. Qed.

Example Number_empty : StringToNumber "" = Finite false 0.
Proof. reflexivity. Qed.

Example Number_blank : StringToNumber " 12 " = Finite false (12 # 1).
Proof. reflexivity. Qed.

Example Number_letters :
  StringToNumber "abc" = NaN /\ StringToNumber "12abc" = NaN
  /\ StringToNumber "." = NaN /\ StringToNumber "1e" = NaN
  /\ StringToNumber "-0x1F" = NaN.
Proof. repeat split. Qed.

Example Number_negative : StringToNumber "-1" = Finite true (1 # 1).
Proof. reflexivity. Qed.

Example Number_infinity :
  StringToNumber "Infinity" = Infinity false
  /\ StringToNumber "-Infinity" = Infinity true.
Proof. split; reflexivity. Qed.

(** A negative number too small for binary64 is [-0], and [-0 >= 0]. *)
Example Number_underflow :
  StringToNumber "-1e-400" = Finite true (1 # 10 ^ 400)
  /\ ge_zero (StringToNumber "-1e-400") = true
  /\ ge_zero (StringToNumber "-1e-300") = false.
Proof. vm_compute. repeat split. Qed.

Example parseInt_examples :
  parseInt "1.5" = Finite false (1 # 1)
  /\ parseInt "0x1F" = Finite false (31 # 1)
  /\ parseInt "  -12abc" = Finite true (12 # 1)
  /\ parseInt "1e3" = Finite false (1 # 1)
  /\ parseInt "" = NaN
  /\ parseInt "abc" = NaN.
Proof. repeat split. Qed.

(** *** Digits *)

Ltac each_ascii c :=
  destruct c as [[] [] [] [] [] [] [] []]; vm_compute; try reflexivity;
  try discriminate.

Lemma digit_not_whitespace (c : ascii) :
  is_digit c = true -> is_whitespace c = false.
Proof. each_ascii c. Qed.

Lemma digit_not_prefix_letter (c : ascii) :
  is_digit c = true ->
  ascii_in c "xX" = false /\ ascii_in c "oO" = false /\ ascii_in c "bB" = false.
Proof. each_ascii c; intros _; repeat split. Qed.

Lemma digit_not_sign (c : ascii) :
  is_digit c = true ->
  c <> "-"%char /\ c <> "+"%char /\ c <> "I"%char /\ c <> "."%char.
Proof. each_ascii c; intros _; repeat split; discriminate. Qed.

Lemma span_digits (ds : list ascii) :
  forallb is_digit ds = true -> span is_digit ds = (ds, []).
Proof.
  induction ds as [|c ds IH]; simpl; [reflexivity|].
  intros H. apply andb_prop in H as [Hc Hds].
  rewrite Hc, (IH Hds). reflexivity.
Qed.

Lemma forallb_rev {A} (p : A -> bool) (l : list A) :
  forallb p (List.rev l) = forallb p l.
Proof.
  induction l as [|a l IH]; simpl; [reflexivity|].
  rewrite forallb_app, IH. simpl. rewrite andb_true_r. apply andb_comm.
Qed.

Lemma trim_start_digits (ds : list ascii) :
  forallb is_digit ds = true -> trim_start ds = ds.
Proof.
  destruct ds as [|c ds]; simpl; [reflexivity|].
  intros H. apply andb_prop in H as [Hc _].
  now rewrite (digit_not_whitespace c Hc).
Qed.

Lemma trim_digits (ds : list ascii) :
  forallb is_digit ds = true -> trim ds = ds.
Proof.
  intros H. unfold trim.
  rewrite (trim_start_digits ds H), trim_start_digits.
  - apply rev_involutive.
  - now rewrite forallb_rev.
Qed.

(** A numeral made of digits only reads as the integer it writes. *)
Lemma StringToNumber_digits (s : string) :
  chars s <> [] -> forallb is_digit (chars s) = true ->
  StringToNumber s = Finite false (digits_value 10 (chars s) # 1).
Proof.
  intros Hne Hds. unfold StringToNumber. rewrite (trim_digits _ Hds).
  destruct (chars s) as [|c ds] eqn:Ecs; [congruence|].
  assert (Hc : is_digit c = true).
  { cbn [forallb] in Hds. now apply andb_prop in Hds. }
  assert (Hnd : NonDecimalIntegerLiteral (c :: ds) = None).
  { unfold NonDecimalIntegerLiteral.
    destruct (Ascii.eqb c "0") eqn:E0.
    - apply Ascii.eqb_eq in E0. subst c.
      destruct ds as [|p [|d ds']]; try reflexivity.
      assert (Hp : is_digit p = true).
      { cbn [forallb] in Hds. apply andb_prop in Hds as [_ Hds].
        now apply andb_prop in Hds. }
      destruct (digit_not_prefix_letter p Hp) as (H1 & H2 & H3).
      now rewrite H1, H2, H3.
    - destruct c as [[] [] [] [] [] [] [] []]; try discriminate E0;
        reflexivity. }
  rewrite Hnd.
  destruct (digit_not_sign c Hc) as (Hm & Hp & HI & _).
  assert (Hu : StrUnsignedDecimalLiteral (c :: ds)
               = Some (Some (digits_value 10 (c :: ds) # 1)%Q)).
  { unfold StrUnsignedDecimalLiteral.
    replace (list_ascii_eqb (c :: ds) (chars "Infinity")) with false.
    2:{ unfold list_ascii_eqb. simpl.
        destruct (Ascii.eqb c "I") eqn:E; [|reflexivity].
        apply Ascii.eqb_eq in E. congruence. }
    rewrite (span_digits _ Hds). rewrite app_nil_r.
    cbn [ExponentPart List.length Z.of_nat]. unfold decimal_value.
    replace (0 - 0)%Z with 0%Z by reflexivity.
    cbn [Z.leb Z.compare Z.pow]. now rewrite Z.mul_1_r. }
  destruct c as [[] [] [] [] [] [] [] []]; try (exfalso; congruence);
    try discriminate Hc; rewrite Hu; reflexivity.
Qed.

Lemma digits_of_uint (d : Decimal.uint) :
  forallb is_digit (chars (DecimalString.NilEmpty.string_of_uint d)) = true
  /\ forall acc : nat,
       fold_left (fun a c => (10 * a + digit_val c)%Z)
                 (chars (DecimalString.NilEmpty.string_of_uint d))
                 (Z.of_nat acc)
       = Z.of_nat (Nat.of_uint_acc d acc).
Proof.
  induction d as [|d [IH1 IH2]|d [IH1 IH2]|d [IH1 IH2]|d [IH1 IH2]|d [IH1 IH2]
                 |d [IH1 IH2]|d [IH1 IH2]|d [IH1 IH2]|d [IH1 IH2]|d [IH1 IH2]];
    (split; [try reflexivity; simpl; exact IH1 | intro acc; try reflexivity]);
    cbn [DecimalString.NilEmpty.string_of_uint chars list_ascii_of_string
         fold_left Nat.of_uint_acc];
    rewrite <- IH2; f_equal; rewrite Nat.tail_mul_spec;
    change (digit_val _) with 0%Z || change (digit_val _) with 1%Z
    || change (digit_val _) with 2%Z || change (digit_val _) with 3%Z
    || change (digit_val _) with 4%Z || change (digit_val _) with 5%Z
    || change (digit_val _) with 6%Z || change (digit_val _) with 7%Z
    || change (digit_val _) with 8%Z || change (digit_val _) with 9%Z;
    lia.
Qed.

Lemma decimal_digits (n : nat) :
  chars (Service.decimal n) <> []
  /\ forallb is_digit (chars (Service.decimal n)) = true
  /\ digits_value 10 (chars (Service.decimal n)) = Z.of_nat n.
Proof.
  unfold Service.decimal.
  destruct (digits_of_uint (Nat.to_uint n)) as [Hd Hv].
  assert (Hval : digits_value 10
                   (chars (DecimalString.NilEmpty.string_of_uint (Nat.to_uint n)))
                 = Z.of_nat n).
  { unfold digits_value. pose proof (Hv O) as H0.
    change (Z.of_nat 0) with 0%Z in H0. rewrite H0.
    change (Nat.of_uint_acc (Nat.to_uint n) 0) with (Nat.of_uint (Nat.to_uint n)).
    now rewrite DecimalNat.Unsigned.of_to. }
  repeat split; try assumption.
  intro Hnil. rewrite Hnil in Hval. cbn in Hval.
  destruct n; [|lia].
  vm_compute in Hnil. discriminate.
Qed.

(** [Number] reads a decimal numeral back as the number it writes. *)
Lemma StringToNumber_decimal (n : nat) :
  StringToNumber (Service.decimal n) = of_nat n.
Proof.
  destruct (decimal_digits n) as (Hne & Hd & Hv).
  rewrite (StringToNumber_digits _ Hne Hd), Hv. reflexivity.
Qed.

Lemma decimal_not_empty (n : nat) : (Service.decimal n =? "") = false.
Proof.
  destruct (decimal_digits n) as (Hne & _ & _).
  destruct (Service.decimal n); [now elim Hne | reflexivity].
Qed.

End JSFacts.

(** ** Continuation tokens and the request of a page *)

Module TokenFacts.

Import Paging Service JSFacts.

Section Facts.

Context {OperationOptions : Type}.

Lemma throwIfInvalidContinuationToken_string (t : string) :
  throwIfInvalidContinuationToken (TString t) =
    if ge_zero (StringToNumber t) then inr tt
    else inl (Error ("Invalid continuationToken " ++ t ++ " provided")).
Proof. reflexivity. Qed.

(** [byPage] does nothing but validate the token and create the generator:
    the log of requests comes back as it went in. *)
Lemma byPage_unfold (options : OperationOptions) (settings : PageSettings)
  (log : list (WebResource OperationOptions)) :
  byPage options settings log =
    match throwIfInvalidContinuationToken (settings_continuationToken settings) with
    | inr _ =>
        (inr (PageStart (settings_continuationToken settings)
                {| maxPageSize := settings_maxPageSize settings;
                   operation_options := options |}), log)
    | inl e => (inl e, log)
    end.
Proof.
  unfold byPage, bind, lift, ret.
  destruct (throwIfInvalidContinuationToken _) as [e|[]]; reflexivity.
Qed.

(** C10.  The validation of a continuation token accepts exactly the
    absent token and the strings [t] with [Number(t) >= 0]; so [byPage]
    takes the empty string, ["1.5"], ["1e3"] and ["0x1F"] without error, and
    the strings it rejects are those that convert to [NaN] or to a negative
    number. *)
Theorem continuation_token_validation :
  (forall token : Token,
     throwIfInvalidContinuationToken token = inr tt <->
     token = TUndefined \/
     exists t, token = TString t /\ ge_zero (StringToNumber t) = true)
  /\ (forall (options : OperationOptions) size log t,
        In t [""; "1.5"; "1e3"; "0x1F"] ->
        byPage options
          {| settings_continuationToken := TString t;
             settings_maxPageSize := size |} log
        = (inr (PageStart (TString t)
                  {| maxPageSize := size; operation_options := options |}),
           log))
  /\ (forall t : string,
        (exists e, throwIfInvalidContinuationToken (TString t) = inl e) <->
        isNaN (StringToNumber t) = true \/ lt_zero (StringToNumber t) = true).
Proof.
  split; [|split].
  - intros [| |t]; split.
    + now left.
    + reflexivity.
    + discriminate.
    + intros [H|(t & H & _)]; discriminate.
    + rewrite throwIfInvalidContinuationToken_string.
      destruct (ge_zero (StringToNumber t)) eqn:E; [|discriminate].
      intros _. right. now exists t.
    + intros [H|(t' & H & Hge)]; [discriminate|].
      injection H as <-. rewrite throwIfInvalidContinuationToken_string.
      now rewrite Hge.
  - intros options size log t Hin. rewrite byPage_unfold.
    cbn [settings_continuationToken settings_maxPageSize].
    rewrite throwIfInvalidContinuationToken_string.
    simpl in Hin.
    destruct Hin as [<-|[<-|[<-|[<-|[]]]]]; reflexivity.
  - intros t. rewrite throwIfInvalidContinuationToken_string.
    rewrite <- ge_zero_false.
    destruct (ge_zero (StringToNumber t)); split.
    + intros [e H]. discriminate.
    + discriminate.
    + reflexivity.
    + intros _. eexists. reflexivity.
Qed.

(** C3, as the code has it.  [byPage] raises [Invalid continuationToken
    <token> provided] for every string token whose conversion by [Number]
    is [NaN] or negative, ["-1"] and ["abc"] among them, and leaves the log
    of requests as it was; the absent token raises nothing. *)
Theorem byPage_rejects_invalid_token :
  (forall (options : OperationOptions) size log t,
     isNaN (StringToNumber t) = true \/ lt_zero (StringToNumber t) = true ->
     byPage options
       {| settings_continuationToken := TString t;
          settings_maxPageSize := size |} log
     = (inl (Error ("Invalid continuationToken " ++ t ++ " provided")), log))
  /\ lt_zero (StringToNumber "-1") = true
  /\ isNaN (StringToNumber "abc") = true
  /\ (forall (options : OperationOptions) size log,
        byPage options
          {| settings_continuationToken := TUndefined;
             settings_maxPageSize := size |} log
        = (inr (PageStart TUndefined
                  {| maxPageSize := size; operation_options := options |}),
           log)).
Proof.
  split; [|split; [|split]].
  - intros options size log t H. apply ge_zero_false in H.
    rewrite byPage_unfold.
    cbn [settings_continuationToken settings_maxPageSize].
    rewrite throwIfInvalidContinuationToken_string. now rewrite H.
  - vm_compute. reflexivity.
  - reflexivity.
  - intros. reflexivity.
Qed.

(** The query of a request leaves out a [skip] of [NaN] or zero. *)
Lemma queryParams_of_skip (n : JSNumber) (size : option JSNumber) :
  queryParams_of {| skip := Some n; maxCount := size |} =
    (if truthy_number n then [("$skip", n)] else [])
    ++ match size with
       | Some m => if truthy_number m then [("$top", m)] else []
       | None => []
       end.
Proof.
  reflexivity.
Qed.

End Facts.

(** C3, as stated, fails: ["1.5"] is not a non-negative integer string, and
    [byPage] takes it. *)
Lemma byPage_accepts_fraction :
  nonNegativeIntegerString "1.5" = false
  /\ byPage tt {| settings_continuationToken := TString "1.5";
                  settings_maxPageSize := None |} []
     = (inr (PageStart (TString "1.5")
               {| maxPageSize := None; operation_options := tt |}), []).
Proof. split; reflexivity. Qed.

End TokenFacts.

(** ** One page *)

Module PageFacts.

Import Paging Service JSFacts TokenFacts.

Section Facts.

Context {Raw QueueProperties OperationOptions : Type}.
Context {collaborators : Collaborators Raw QueueProperties OperationOptions}.

(** One round of [listQueuesPage] issues one request, the one of
    [page_request], and yields the page built from the answer. *)
Lemma listQueuesPage_round_unfold (marker : Token)
  (options : PageOptions OperationOptions) log :
  listQueuesPage_round marker options log =
    match executeAtomXmlOperation (page_request marker options) with
    | inr response =>
        match buildListQueuesResponse response with
        | inr page =>
            (Value page, PageYielded (continuationToken page) options,
             log ++ [page_request marker options])
        | inl e => (Thrown e, PageCompleted, log ++ [page_request marker options])
        end
    | inl e => (Thrown e, PageCompleted, log ++ [page_request marker options])
    end.
Proof.
  unfold listQueuesPage_round, listQueues, listResources, bind, lift.
  fold (page_request marker options).
  destruct (executeAtomXmlOperation (page_request marker options)) as [e|r];
    [reflexivity|].
  destruct (buildListQueuesResponse r); reflexivity.
Qed.

(** C6, as the code has it.  The first [next()] of [listQueuesPage] issues a
    single request for [$Resources/Queues], with [skip = Number(marker)]
    and [maxCount = options.maxPageSize]; [$skip] and [$top] are sent only
    when the value is neither [NaN] nor zero, so that the absent marker and
    the marker ["0"] both ask for the collection from its start. *)
Theorem listQueuesPage_request :
  (forall (marker : Token) (options : PageOptions OperationOptions) log,
     exists result g,
       listQueuesPage_next (PageStart marker options) log
       = (result, g, log ++ [page_request marker options]))
  /\ (forall (marker : Token) (options : PageOptions OperationOptions),
        path (page_request marker options) = "$Resources/Queues"
        /\ queryParams (page_request marker options) =
             (if truthy_number (Number marker)
              then [("$skip", Number marker)] else [])
             ++ match maxPageSize options with
                | Some m => if truthy_number m then [("$top", m)] else []
                | None => []
                end)
  /\ (forall options : PageOptions OperationOptions,
        page_request TUndefined options = page_request (TString "0") options
        /\ param "$skip" (queryParams (page_request TUndefined options)) = None).
Proof.
  split; [|split].
  - intros marker options log. cbn [listQueuesPage_next].
    rewrite listQueuesPage_round_unfold.
    destruct (executeAtomXmlOperation _) as [e|r]; [now eauto|].
    destruct (buildListQueuesResponse r); eauto.
  - intros marker options. split; [reflexivity|].
    unfold page_request, list_options. cbn [queryParams].
    apply queryParams_of_skip.
  - intros options.
    assert (H0 : truthy_number (Number (TString "0")) = false)
      by (vm_compute; reflexivity).
    unfold page_request, list_options. cbn [queryParams].
    rewrite !queryParams_of_skip, H0. cbn [Number truthy_number].
    split; [reflexivity|].
    destruct (maxPageSize options) as [m|]; [|reflexivity].
    destruct (truthy_number m); reflexivity.
Qed.

(** What [decode_all] keeps: the decoded records, in order, unless the
    decoder throws on one. *)
Lemma decode_all_app (a b : list Raw) :
  decode_all (a ++ b) =
    match decode_all a with
    | inl e => inl e
    | inr queues =>
        match decode_all b with
        | inl e => inl e
        | inr queues' => inr (queues ++ queues')
        end
    end.
Proof.
  induction a as [|raw a IH]; cbn [decode_all app].
  - destruct (decode_all b); reflexivity.
  - destruct (buildQueue raw) as [e|[q|]]; [reflexivity| |exact IH].
    rewrite IH. destruct (decode_all a); [reflexivity|].
    destruct (decode_all b); reflexivity.
Qed.

Lemma decode_all_In (raws : list Raw) (queues : list QueueProperties)
  (queue : QueueProperties) :
  decode_all raws = inr queues ->
  In queue queues <->
  exists raw, In raw raws /\ buildQueue raw = inr (Some queue).
Proof.
  revert queues.
  induction raws as [|raw raws IH]; cbn [decode_all]; intros queues H.
  - injection H as <-. split; [intros [] | intros (r & [] & _)].
  - destruct (buildQueue raw) as [e|[q|]] eqn:E; [discriminate| |].
    + destruct (decode_all raws) as [e|queues'] eqn:D; [discriminate|].
      injection H as <-. specialize (IH queues' eq_refl). cbn [In].
      rewrite IH. split.
      * intros [<-|(r & Hin & Hr)]; eauto.
      * intros (r & [<-|Hin] & Hr); [left; congruence | right; eauto].
    + rewrite (IH queues H). cbn [In]. split.
      * intros (r & Hin & Hr); eauto.
      * intros (r & [<-|Hin] & Hr); [congruence | eauto].
Qed.

Lemma decode_all_length (raws : list Raw) (queues : list QueueProperties) :
  decode_all raws = inr queues ->
  List.length queues
  = List.length (filter (fun raw => match buildQueue raw with
                                    | inr (Some _) => true
                                    | _ => false
                                    end) raws).
Proof.
  revert queues.
  induction raws as [|raw raws IH]; cbn [decode_all filter]; intros queues H.
  - now injection H as <-.
  - destruct (buildQueue raw) as [e|[q|]]; [discriminate| |now apply IH].
    destruct (decode_all raws) as [e|queues']; [discriminate|].
    injection H as <-. cbn [List.length]. now rewrite (IH queues' eq_refl).
Qed.

Lemma decode_all_le (raws : list Raw) (queues : list QueueProperties) :
  decode_all raws = inr queues ->
  (List.length queues <= List.length raws)%nat.
Proof.
  intros H. rewrite (decode_all_length raws queues H). apply filter_length_le.
Qed.

Lemma decode_all_decodable (raws : list Raw) (f : Raw -> QueueProperties) :
  (forall raw, In raw raws -> buildQueue raw = inr (Some (f raw))) ->
  decode_all raws = inr (map f raws).
Proof.
  induction raws as [|raw raws IH]; cbn [decode_all map]; [reflexivity|].
  intros H. rewrite (H raw (or_introl eq_refl)), IH; [reflexivity|].
  intros r Hr. apply H. now right.
Qed.

Lemma decode_all_firstn (n : nat) (raws : list Raw) :
  decode_all raws =
    match decode_all (firstn n raws) with
    | inl e => inl e
    | inr queues =>
        match decode_all (skipn n raws) with
        | inl e => inl e
        | inr queues' => inr (queues ++ queues')
        end
    end.
Proof. rewrite <- decode_all_app, firstn_skipn. reflexivity. Qed.

(** The loop ends without an exception exactly when the decoder throws on
    no record. *)
Lemma decode_all_returns (raws : list Raw) :
  (exists queues, decode_all raws = inr queues) <->
  (forall raw, In raw raws -> exists o, buildQueue raw = inr o).
Proof.
  induction raws as [|raw raws IH]; cbn [decode_all].
  - split; [intros _ r [] | intros _; now exists []].
  - destruct (buildQueue raw) as [e|[q|]] eqn:E.
    + split; [intros (queues & H); discriminate|].
      intros H. destruct (H raw (or_introl eq_refl)) as (o & Ho). congruence.
    + split.
      * intros (queues & H) r [<-|Hr]; [eauto|].
        apply IH; [|exact Hr].
        destruct (decode_all raws) as [e|queues']; [discriminate|eauto].
      * intros H. destruct IH as [_ IH].
        destruct IH as (queues' & ->); [intros r Hr; apply H; now right|].
        eauto.
    + rewrite IH. split.
      * intros H r [<-|Hr]; eauto.
      * intros H r Hr. apply H. now right.
Qed.

(** The exception of the loop is the one of the first record the decoder
    throws on. *)
Lemma decode_all_throws (raws : list Raw) (e : Exn) :
  decode_all raws = inl e <->
  exists before raw after,
    raws = before ++ raw :: after
    /\ buildQueue raw = inl e
    /\ forall r, In r before -> exists o, buildQueue r = inr o.
Proof.
  split.
  - induction raws as [|raw raws IH]; cbn [decode_all]; [discriminate|].
    destruct (buildQueue raw) as [e'|o] eqn:E.
    + intros [= ->]. exists [], raw, raws. repeat split; [exact E|intros r []].
    + intros H.
      assert (H' : decode_all raws = inl e).
      { destruct o; [|exact H].
        destruct (decode_all raws); [exact H|discriminate]. }
      destruct (IH H') as (before & raw' & after & -> & Hraw & Hbefore).
      exists (raw :: before), raw', after. repeat split; [exact Hraw|].
      intros r [<-|Hr]; eauto.
  - intros (before & raw & after & -> & Hraw & Hbefore).
    rewrite decode_all_app.
    destruct (proj2 (decode_all_returns before) Hbefore) as (queues & ->).
    cbn [decode_all]. now rewrite Hraw.
Qed.

Lemma buildListQueuesResponse_array response raws nextLink marker :
  parsedBody response = BodyArray raws nextLink ->
  getMarkerFromNextLinkUrl nextLink = inr marker ->
  buildListQueuesResponse response
  = match decode_all raws with
    | inr queues =>
        inr {| items := queues; continuationToken := marker;
               _response := response |}
    | inl _ => inl (parse_error response)
    end.
Proof.
  intros Hb Hm. unfold buildListQueuesResponse, buildListQueuesResponse_try.
  rewrite Hb, Hm. destruct (decode_all raws); reflexivity.
Qed.

(** A page that is returned comes from an array body whose next link gave
    the marker and whose records the decoder did not throw on. *)
Lemma buildListQueuesResponse_returns response page :
  buildListQueuesResponse response = inr page ->
  exists raws nextLink,
    parsedBody response = BodyArray raws nextLink
    /\ getMarkerFromNextLinkUrl nextLink = inr (continuationToken page)
    /\ decode_all raws = inr (items page)
    /\ _response page = response.
Proof.
  unfold buildListQueuesResponse, buildListQueuesResponse_try.
  destruct (parsedBody response) as [|nl|raws nl]; [discriminate| |].
  - destruct (getMarkerFromNextLinkUrl nl); discriminate.
  - destruct (getMarkerFromNextLinkUrl nl) as [e|marker] eqn:Hm; [discriminate|].
    destruct (decode_all raws) as [e|queues] eqn:Hd; [discriminate|].
    intros [= <-]. exists raws, nl. cbn. repeat split; assumption.
Qed.

(** C5, as the code has it.  [buildListQueuesResponse] returns the page of
    an array body whose next link yields a marker and on none of whose
    records the decoder throws: the records for which the decoder returns
    [undefined] are skipped and the others kept in order, so a well-formed
    record followed by an undecodable one makes a page of one item.  A body
    that is not an array, an array whose next link cannot be parsed, and an
    array with a record on which the decoder throws, each make it throw the
    [RestError] with code [PARSE_ERROR]; it has no other outcome. *)
Theorem buildListQueuesResponse_outcomes :
  (forall response raws nextLink marker queues,
     parsedBody response = BodyArray raws nextLink ->
     getMarkerFromNextLinkUrl nextLink = inr marker ->
     decode_all raws = inr queues ->
     buildListQueuesResponse response
     = inr {| items := queues; continuationToken := marker;
              _response := response |})
  /\ (forall raws,
        (forall raw, In raw raws -> exists o, buildQueue raw = inr o) ->
        exists queues,
          decode_all raws = inr queues
          /\ (forall queue,
                In queue queues <->
                exists raw, In raw raws /\ buildQueue raw = inr (Some queue))
          /\ (forall f,
                (forall raw, In raw raws -> buildQueue raw = inr (Some (f raw))) ->
                queues = map f raws))
  /\ (forall good bad queue,
        buildQueue good = inr (Some queue) -> buildQueue bad = inr None ->
        decode_all [good; bad] = inr [queue]
        /\ decode_all [bad; good] = inr [queue])
  /\ (forall response,
        (forall raws nextLink, parsedBody response <> BodyArray raws nextLink) ->
        buildListQueuesResponse response = inl (parse_error response))
  /\ (forall response raws nextLink e,
        parsedBody response = BodyArray raws nextLink ->
        getMarkerFromNextLinkUrl nextLink = inl e ->
        buildListQueuesResponse response = inl (parse_error response))
  /\ (forall response raws nextLink before raw after e,
        parsedBody response = BodyArray raws nextLink ->
        raws = before ++ raw :: after ->
        buildQueue raw = inl e ->
        buildListQueuesResponse response = inl (parse_error response))
  /\ (forall response,
        buildListQueuesResponse response = inl (parse_error response)
        \/ exists raws nextLink marker queues,
             parsedBody response = BodyArray raws nextLink
             /\ getMarkerFromNextLinkUrl nextLink = inr marker
             /\ decode_all raws = inr queues
             /\ buildListQueuesResponse response
                = inr {| items := queues; continuationToken := marker;
                         _response := response |}).
Proof.
  split; [|split; [|split; [|split; [|split; [|split]]]]].
  - intros response raws nextLink marker queues Hb Hm Hd.
    rewrite (buildListQueuesResponse_array _ _ _ _ Hb Hm). now rewrite Hd.
  - intros raws Hraws.
    destruct (proj2 (decode_all_returns raws) Hraws) as (queues & Hd).
    exists queues. split; [exact Hd|]. split.
    + intros queue. now apply decode_all_In.
    + intros f Hf. rewrite (decode_all_decodable raws f Hf) in Hd. congruence.
  - intros good bad queue Hgood Hbad. cbn [decode_all].
    now rewrite Hgood, Hbad.
  - intros response Hb.
    unfold buildListQueuesResponse, buildListQueuesResponse_try.
    destruct (parsedBody response) as [|nl|raws nl]; [reflexivity| |].
    + destruct (getMarkerFromNextLinkUrl nl); reflexivity.
    + now elim (Hb raws nl).
  - intros response raws nextLink e Hb Hm.
    unfold buildListQueuesResponse, buildListQueuesResponse_try.
    now rewrite Hb, Hm.
  - intros response raws nextLink before raw after e Hb -> Hraw.
    unfold buildListQueuesResponse, buildListQueuesResponse_try.
    rewrite Hb. destruct (getMarkerFromNextLinkUrl nextLink); [reflexivity|].
    destruct (decode_all (before ++ raw :: after)) as [e'|queues] eqn:Hd;
      [reflexivity|].
    exfalso.
    assert (Hall : exists o, buildQueue raw = inr o).
    { apply (proj1 (decode_all_returns (before ++ raw :: after)));
        [eauto | apply in_elt]. }
    destruct Hall as (o & Ho). congruence.
  - intros response.
    unfold buildListQueuesResponse, buildListQueuesResponse_try.
    destruct (parsedBody response) as [|nl|raws nl] eqn:Hb; [now left| |].
    + left. destruct (getMarkerFromNextLinkUrl nl); reflexivity.
    + destruct (getMarkerFromNextLinkUrl nl) as [e|marker] eqn:Hm;
        [now left|].
      destruct (decode_all raws) as [e|queues] eqn:Hd; [now left|].
      right. exists raws, nl, marker, queues. repeat split; assumption.
Qed.

End Facts.

(** C6, as stated, fails: for the marker ["1.5"], which [byPage] accepts,
    the request carries [$skip = 1.5], where [parseInt] gives 1. *)
Lemma listPage_skip_is_not_parseInt :
  let options := {| maxPageSize := None; operation_options := tt |} in
  skip (list_options (TString "1.5") options) = Some (Finite false (3 # 2))
  /\ skip (listPage_options_as_specified (TString "1.5") None)
     = Some (Finite false (1 # 1))
  /\ snd (listQueuesPage_next (collaborators := fixed_service [] None)
            (PageStart (TString "1.5") options) [])
     = [ {| path := "$Resources/Queues";
            queryParams := [("$skip", Finite false (3 # 2))];
            operationOptions := tt |} ]
  /\ queryParams_of (listPage_options_as_specified (TString "1.5") None)
     = [("$skip", Finite false (1 # 1))].
Proof. vm_compute. repeat split. Qed.

(** C5, as stated, fails: a page with one well-formed and one undecodable
    record, whose next link is not a URL [parseURL] accepts, yields no item
    but the parse error. *)
Lemma page_lost_to_next_link :
  let response :=
    {| status := 200;
       parsedBody := BodyArray [7; 0]%nat (Some "$Resources/Queues?$skip=2") |} in
  buildQueue (Collaborators := fixed_service [] None) 7%nat = inr (Some 7%nat)
  /\ buildQueue (Collaborators := fixed_service [] None) 0%nat = inr None
  /\ buildListQueuesResponse (collaborators := fixed_service [] None) response
     = inl (RestError
              "Error occurred while parsing the response body - cannot form a list of queues using the response from the service."
              "PARSE_ERROR" 200).
Proof. vm_compute. repeat split. Qed.

(** A record on which the decoder throws loses the page as well, whatever
    the records before it. *)
Lemma page_lost_to_decoder :
  let response :=
    {| status := 200; parsedBody := BodyArray [7; 0; 5]%nat None |} in
  buildQueue (Collaborators := refusing_service [] 1) 7%nat = inr (Some 7%nat)
  /\ buildQueue (Collaborators := refusing_service [] 1) 0%nat = inl refused
  /\ buildListQueuesResponse (collaborators := refusing_service [] 1) response
     = inl (RestError
              "Error occurred while parsing the response body - cannot form a list of queues using the response from the service."
              "PARSE_ERROR" 200).
Proof. vm_compute. repeat split. Qed.

End PageFacts.

(** ** Scans *)

Module ScanFacts.

Import Paging Service JSFacts TokenFacts PageFacts.

Section Generic.

Context {Raw QueueProperties OperationOptions : Type}.
Context {collaborators : Collaborators Raw QueueProperties OperationOptions}.

Local Notation "'WebResource'" := (WebResource OperationOptions).
Local Notation "'EntitiesResponse'" := (EntitiesResponse Raw QueueProperties).
Local Notation "'PageOptions'" := (PageOptions OperationOptions).

(** Up to [2^53] the offset read from a request is the one it carries on
    the wire. *)
Lemma offset_of_sent (w : WebResource) (k : nat) :
  offset_of w = Some k ->
  (Z.of_nat k <= 2 ^ 53)%Z ->
  skip_sent w = Some (Z.of_nat k).
Proof.
  unfold offset_of, skip_sent. intros Hoff Hk.
  destruct (param "$skip" (queryParams w)) as [[|negative|[] [z d]]|];
    try discriminate.
  - cbn [Qden Qnum] in Hoff.
    destruct (Pos.eqb d 1) eqn:Hd; [|discriminate].
    apply Pos.eqb_eq in Hd. subst d.
    destruct (0 <=? z)%Z eqn:Hz; [|discriminate].
    apply Z.leb_le in Hz. cbn [andb] in Hoff. injection Hoff as <-.
    rewrite Z2Nat.id in Hk |- * by exact Hz.
    rewrite binary64_safe by lia. reflexivity.
  - now injection Hoff as <-.
Qed.

Lemma forAwaitAll_S (fuel : nat) g (log : list WebResource) :
  forAwaitAll (S fuel) g log
  = resume (forAwaitAll fuel) (listQueuesAll_next (S fuel) g log).
Proof. reflexivity. Qed.

Lemma listQueuesAll_next_item (fuel : nat) pages queue rest
  (log : list WebResource) :
  listQueuesAll_next fuel {| segments := pages; segment := queue :: rest |} log
  = (Some (Value queue), {| segments := pages; segment := rest |}, log).
Proof. destruct fuel; reflexivity. Qed.

(** The items of [listQueuesAll] are the items of the pages of
    [listQueuesPage], page after page, and the two end alike. *)
Lemma resume_flatten (f : nat) :
  forall g (log : list WebResource) pages outcome log',
    forAwaitPages f g log = (pages, outcome, log') ->
    outcome <> OutOfFuel ->
    forall seg fn fa,
      (f <= fn)%nat ->
      (f + List.length seg + List.length (List.concat (map items pages)) <= fa)%nat ->
      resume (forAwaitAll fa)
        (listQueuesAll_next fn {| segments := g; segment := seg |} log)
      = (seg ++ List.concat (map items pages), outcome, log').
Proof.
  induction f as [|f IHf]; intros g log pages outcome log' Hp Hout.
  - cbn in Hp. injection Hp as <- <- <-. congruence.
  - induction seg as [|queue rest IHseg]; intros fn fa Hfn Hfa.
    + destruct fn as [|fn]; [lia|].
      cbn [forAwaitPages] in Hp. cbn [listQueuesAll_next segment segments].
      destruct (listQueuesPage_next g log) as [[[page| |e] g'] log1].
      * destruct (forAwaitPages f g' log1) as [[rest o] l] eqn:Hrest.
        injection Hp as <- <- <-.
        cbn [map List.concat app]. cbn [map List.concat] in Hfa.
        rewrite length_app in Hfa.
        apply (IHf g' log1 rest o l Hrest Hout (items page) fn fa); lia.
      * injection Hp as <- <- <-. reflexivity.
      * injection Hp as <- <- <-. reflexivity.
    + rewrite listQueuesAll_next_item. cbn [resume].
      cbn [List.length] in Hfa.
      destruct fa as [|fa]; [lia|].
      rewrite forAwaitAll_S, (IHseg (S fa) fa) by lia.
      reflexivity.
Qed.

Lemma forAwaitAll_flatten (f : nat) g (log : list WebResource)
  pages outcome log' (fuel : nat) :
  forAwaitPages f g log = (pages, outcome, log') ->
  outcome <> OutOfFuel ->
  (f + List.length (List.concat (map items pages)) < fuel)%nat ->
  forAwaitAll fuel {| segments := g; segment := [] |} log
  = (List.concat (map items pages), outcome, log').
Proof.
  intros Hp Hout Hfuel. destruct fuel as [|fuel]; [lia|].
  rewrite forAwaitAll_S.
  apply (resume_flatten f g log pages outcome log' Hp Hout [] (S fuel) fuel);
    cbn [List.length]; lia.
Qed.

(** *** The log of requests is written, never read *)

Lemma listQueuesPage_next_log g (log : list WebResource) :
  listQueuesPage_next g log =
    let '(r, g', reqs) := listQueuesPage_next g [] in (r, g', log ++ reqs).
Proof.
  destruct g as [marker options|marker options|]; cbn [listQueuesPage_next].
  - rewrite !listQueuesPage_round_unfold.
    destruct (executeAtomXmlOperation _) as [e|r]; [reflexivity|].
    destruct (buildListQueuesResponse r); reflexivity.
  - destruct (truthy marker); [|now rewrite app_nil_r].
    rewrite !listQueuesPage_round_unfold.
    destruct (executeAtomXmlOperation _) as [e|r]; [reflexivity|].
    destruct (buildListQueuesResponse r); reflexivity.
  - now rewrite app_nil_r.
Qed.

Lemma listQueuesAll_next_log (fuel : nat) :
  forall g (log : list WebResource),
    listQueuesAll_next fuel g log =
      let '(r, g', reqs) := listQueuesAll_next fuel g [] in
      (r, g', log ++ reqs).
Proof.
  induction fuel as [|fuel IH]; intros [pages [|queue rest]] log;
    cbn [listQueuesAll_next segment segments];
    try (now rewrite app_nil_r).
  rewrite (listQueuesPage_next_log pages log).
  destruct (listQueuesPage_next pages []) as [[[page| |e] g'] reqs];
    try reflexivity.
  rewrite (IH _ (log ++ reqs)), (IH _ reqs).
  destruct (listQueuesAll_next fuel _ []) as [[r g''] reqs'].
  now rewrite app_assoc.
Qed.

Lemma forAwaitAll_log (fuel : nat) :
  forall g (log : list WebResource),
    forAwaitAll fuel g log =
      let '(queues, outcome, reqs) := forAwaitAll fuel g [] in
      (queues, outcome, log ++ reqs).
Proof.
  induction fuel as [|fuel IH]; intros g log.
  - cbn. now rewrite app_nil_r.
  - rewrite !forAwaitAll_S, (listQueuesAll_next_log (S fuel) g log).
    destruct (listQueuesAll_next (S fuel) g []) as [[[[queue| |e]|] g'] reqs];
      cbn [resume]; try reflexivity.
    rewrite (IH g' (log ++ reqs)), (IH g' reqs).
    destruct (forAwaitAll fuel g' []) as [[rest outcome] reqs'].
    now rewrite app_assoc.
Qed.

Lemma alone_log (fuel n : nat) :
  forall g (log : list WebResource),
    fst (alone fuel n g log) = fst (alone fuel n g []).
Proof.
  induction n as [|n IH]; intros g log; [reflexivity|].
  cbn [alone]. rewrite (listQueuesAll_next_log fuel g log).
  destruct (listQueuesAll_next fuel g []) as [[r g'] reqs].
  pose proof (IH g' (log ++ reqs)) as H1. pose proof (IH g' reqs) as H2.
  destruct (alone fuel n g' (log ++ reqs)) as [rs1 l1].
  destruct (alone fuel n g' reqs) as [rs2 l2].
  cbn [fst] in *. congruence.
Qed.

(** Whatever the order in which two iterators are consumed, each resolves
    its calls to what it resolves them to when it is consumed alone. *)
Lemma interleaved_alone (fuel : nat) (schedule : list bool) :
  forall g1 g2 (log : list WebResource),
    let '(rs1, rs2, _) := interleaved fuel schedule g1 g2 log in
    rs1 = fst (alone fuel (count_occ bool_dec schedule true) g1 [])
    /\ rs2 = fst (alone fuel (count_occ bool_dec schedule false) g2 []).
Proof.
  induction schedule as [|[] schedule IH]; intros g1 g2 log.
  - split; reflexivity.
  - cbn [interleaved count_occ].
    destruct (bool_dec true true) as [_|H]; [|now elim H].
    destruct (bool_dec true false) as [H|_]; [discriminate|].
    cbn [alone].
    rewrite (listQueuesAll_next_log fuel g1 log).
    destruct (listQueuesAll_next fuel g1 []) as [[r g1'] reqs].
    specialize (IH g1' g2 (log ++ reqs)).
    destruct (interleaved fuel schedule g1' g2 (log ++ reqs)) as [[rs1 rs2] l].
    destruct IH as [-> ->].
    rewrite <- (alone_log fuel _ g1' reqs).
    destruct (alone fuel _ g1' reqs). split; reflexivity.
  - cbn [interleaved count_occ].
    destruct (bool_dec false false) as [_|H]; [|now elim H].
    destruct (bool_dec false true) as [H|_]; [discriminate|].
    cbn [alone].
    rewrite (listQueuesAll_next_log fuel g2 log).
    destruct (listQueuesAll_next fuel g2 []) as [[r g2'] reqs].
    specialize (IH g1 g2' (log ++ reqs)).
    destruct (interleaved fuel schedule g1 g2' (log ++ reqs)) as [[rs1 rs2] l].
    destruct IH as [-> ->].
    rewrite <- (alone_log fuel _ g2' reqs).
    destruct (alone fuel _ g2' reqs). split; reflexivity.
Qed.

(** More fuel does not change a loop that has ended. *)
Lemma forAwaitPages_mono (f : nat) :
  forall g (log : list WebResource) pages outcome log' f',
    forAwaitPages f g log = (pages, outcome, log') ->
    outcome <> OutOfFuel ->
    (f <= f')%nat ->
    forAwaitPages f' g log = (pages, outcome, log').
Proof.
  induction f as [|f IH]; intros g log pages outcome log' f' Hp Hout Hle.
  - cbn in Hp. injection Hp as <- <- <-. congruence.
  - destruct f' as [|f']; [lia|]. cbn [forAwaitPages] in *.
    destruct (listQueuesPage_next g log) as [[[page| |e] g'] log1];
      try assumption.
    destruct (forAwaitPages f g' log1) as [[rest o] l] eqn:Hrest.
    injection Hp as <- <- <-.
    rewrite (IH g' log1 rest o l f' Hrest Hout); [reflexivity | lia].
Qed.

(** C7.  Two iterations of [getQueues()] against the same service resolve
    to the same items, in number and content, and end alike, the second
    issuing the requests of the first anew; and however the [next()] calls
    of two iterators are interleaved, each iterator resolves them as it
    does when consumed alone: the iterators share no cursor. *)
Theorem listAll_restartable (options : OperationOptions) (fuel : nat) :
  (forall log : list WebResource,
     let '(queues1, outcome1, log1) :=
       forAwaitAll fuel (getQueues options) log in
     let '(queues2, outcome2, log2) :=
       forAwaitAll fuel (getQueues options) log1 in
     queues1 = queues2
     /\ List.length queues1 = List.length queues2
     /\ outcome1 = outcome2
     /\ exists reqs, log1 = log ++ reqs /\ log2 = log1 ++ reqs)
  /\ (forall (schedule : list bool) (log : list WebResource),
        let '(rs1, rs2, _) :=
          interleaved fuel schedule (getQueues options) (getQueues options)
            log in
        rs1 = fst (alone fuel (count_occ bool_dec schedule true)
                     (getQueues options) [])
        /\ rs2 = fst (alone fuel (count_occ bool_dec schedule false)
                        (getQueues options) [])).
Proof.
  split.
  - intros log. rewrite (forAwaitAll_log fuel (getQueues options) log).
    destruct (forAwaitAll fuel (getQueues options) []) as [[queues outcome] reqs]
      eqn:Hrun.
    rewrite (forAwaitAll_log fuel (getQueues options) (log ++ reqs)), Hrun.
    repeat split. now exists reqs.
  - intros schedule log. apply interleaved_alone.
Qed.

End Generic.

Section Served.

Context {Raw QueueProperties OperationOptions : Type}.
Context {collaborators : Collaborators Raw QueueProperties OperationOptions}.

Variable coll : list Raw.
Variable P : nat.
Hypothesis P_positive : (0 < P)%nat.
Hypothesis served : serves collaborators coll P.

Lemma pages_of_small (M : nat) :
  (M <= P)%nat -> Nat.max 1 (pages_of M P) = 1%nat.
Proof.
  intros HM. unfold pages_of.
  assert ((M + P - 1) / P < 2)%nat
    by (apply Nat.Div0.div_lt_upper_bound; lia).
  lia.
Qed.

Lemma pages_of_step (M : nat) :
  (P < M)%nat ->
  Nat.max 1 (pages_of M P) = S (Nat.max 1 (pages_of (M - P) P)).
Proof.
  intros HM. unfold pages_of.
  replace (M + P - 1)%nat with ((M - P + P - 1) + 1 * P)%nat by lia.
  rewrite Nat.div_add by lia.
  assert (1 <= (M - P + P - 1) / P)%nat
    by (apply Nat.div_le_lower_bound; lia).
  lia.
Qed.

Lemma page_request_at (k : nat) (options : PageOptions OperationOptions) :
  maxPageSize options = None ->
  path (page_request (marker_at k) options) = "$Resources/Queues"
  /\ offset_of (page_request (marker_at k) options) = Some k
  /\ param "$top" (queryParams (page_request (marker_at k) options)) = None.
Proof.
  intros Hsize. split; [reflexivity|].
  unfold offset_of, page_request, list_options. cbn [queryParams].
  rewrite queryParams_of_skip, Hsize, app_nil_r.
  destruct k as [|k]; [split; reflexivity|].
  cbn [marker_at Number]. rewrite StringToNumber_decimal.
  rewrite truthy_of_nat by lia. unfold of_nat.
  cbn [param String.eqb Ascii.eqb Bool.eqb Qden Qnum Pos.eqb andb].
  split; [|reflexivity].
  replace (0 <=? Z.of_nat (S k))%Z with true by (symmetry; apply Z.leb_le; lia).
  now rewrite Nat2Z.id.
Qed.

Lemma marker_at_positive (k : nat) :
  (0 < k)%nat -> marker_at k = TString (decimal k) /\ truthy (marker_at k) = true.
Proof.
  destruct k as [|k]; [lia|]. intros _. split; [reflexivity|].
  cbn [marker_at truthy]. now rewrite decimal_not_empty.
Qed.

(** A round at offset [k] yields the page of the records [k .. k+P-1], or
    throws the parse error when the decoder throws on one of them. *)
Lemma round_at (k : nat) (options : PageOptions OperationOptions) log :
  maxPageSize options = None ->
  exists response marker,
    listQueuesPage_round (marker_at k) options log
    = match decode_all (firstn P (skipn k coll)) with
      | inr queues =>
          (Value {| items := queues; continuationToken := marker;
                    _response := response |},
           PageYielded marker options,
           log ++ [page_request (marker_at k) options])
      | inl _ =>
          (Thrown (parse_error response), PageCompleted,
           log ++ [page_request (marker_at k) options])
      end
    /\ (if (k + P <? List.length coll)%nat
        then marker = TString (decimal (k + P))
        else truthy marker = false).
Proof.
  intros Hsize.
  destruct (page_request_at k options Hsize) as (Hpath & Hoff & Htop).
  destruct (served _ k Hpath Hoff Htop) as (st & nl & marker & Hex & Hm & Hnext).
  rewrite listQueuesPage_round_unfold, Hex.
  erewrite buildListQueuesResponse_array; [|reflexivity|exact Hm].
  eexists _, marker. split; [|exact Hnext].
  destruct (decode_all (firstn P (skipn k coll))); reflexivity.
Qed.

(** The scan from offset [k] on, given fuel for its rounds: it completes
    with the decoded records past [k], or fails with the parse error at the
    page of the first record the decoder throws on. *)
Lemma scan_from (n : nat) :
  forall (k : nat) (options : PageOptions OperationOptions) log g fuel,
    maxPageSize options = None ->
    (List.length coll <= k + S n * P)%nat ->
    g = PageStart (marker_at k) options
    \/ ((0 < k)%nat /\ g = PageYielded (marker_at k) options) ->
    (n + 2 <= fuel)%nat ->
    exists pages outcome reqs,
      forAwaitPages fuel g log = (pages, outcome, log ++ reqs)
      /\ Forall (fun w => exists j, offset_of w = Some j
                                   /\ (j = k \/ (j < List.length coll)%nat)) reqs
      /\ ((outcome = Completed
           /\ decode_all (skipn k coll) = inr (List.concat (map items pages))
           /\ List.length pages = Nat.max 1 (pages_of (List.length coll - k) P)
           /\ List.length reqs = List.length pages
           /\ advancing k (map continuationToken pages))
          \/ (exists response : HttpOperationResponse Raw,
                outcome = Failed (parse_error response)
                /\ (exists e, decode_all (skipn k coll) = inl e)
                /\ (List.length (List.concat (map items pages))
                    <= List.length coll - k)%nat
                /\ List.length reqs = S (List.length pages)
                /\ climbing k (map continuationToken pages))).
Proof.
  induction n as [|n IH]; intros k options log g fuel Hsize HN Hg Hfuel;
    (destruct fuel as [|fuel]; [lia|]);
    (assert (Hnext : listQueuesPage_next g log
                     = listQueuesPage_round (marker_at k) options log)
      by (destruct Hg as [->|[Hk ->]]; [reflexivity|];
          cbn [listQueuesPage_next];
          now rewrite (proj2 (marker_at_positive k Hk))));
    cbn [forAwaitPages]; rewrite Hnext;
    destruct (round_at k options log Hsize) as (response & marker & -> & Htoken);
    pose proof (decode_all_firstn P (skipn k coll)) as Hsplit;
    (assert (Hfirst : exists j,
               offset_of (page_request (marker_at k) options) = Some j
               /\ (j = k \/ (j < List.length coll)%nat))
      by (exists k; split;
          [exact (proj1 (proj2 (page_request_at k options Hsize))) | now left]));
    (destruct (decode_all (firstn P (skipn k coll))) as [e|queues] eqn:Hd;
     [ exists [], (Failed (parse_error response)),
         [page_request (marker_at k) options];
       split; [reflexivity|]; split; [now constructor|];
       right; exists response;
       split; [reflexivity|]; split; [now exists e|];
       split; [cbn; lia|]; split; reflexivity |]);
    destruct (k + P <? List.length coll)%nat eqn:Hmore;
    [apply Nat.ltb_lt in Hmore; lia | | |].
  - (* the only page *)
    apply Nat.ltb_ge in Hmore.
    destruct fuel as [|fuel]; [lia|].
    cbn [forAwaitPages listQueuesPage_next]. rewrite Htoken.
    exists [{| items := queues; continuationToken := marker;
               _response := response |}],
      Completed, [page_request (marker_at k) options].
    split; [reflexivity|]. split; [now constructor|].
    left. split; [reflexivity|].
    split; [|split; [|split]].
    + cbn [map List.concat items]. rewrite app_nil_r, <- Hd.
      rewrite firstn_all2; [reflexivity|]. rewrite length_skipn. lia.
    + cbn [List.length]. rewrite pages_of_small; lia.
    + reflexivity.
    + cbn [map advancing continuationToken]. left.
      split; [assumption|reflexivity].
  - (* a page with more to come *)
    apply Nat.ltb_lt in Hmore.
    assert (Hpos : (0 < k + P)%nat) by lia.
    destruct (marker_at_positive (k + P) Hpos) as [Hmarker _].
    rewrite Htoken, <- Hmarker.
    rewrite skipn_skipn in Hsplit.
    replace (P + k)%nat with (k + P)%nat in Hsplit by lia.
    assert (Hqueues : (List.length queues <= P)%nat).
    { pose proof (decode_all_le _ _ Hd) as Hle.
      rewrite length_firstn in Hle. lia. }
    destruct (IH (k + P)%nat options
                (log ++ [page_request (marker_at k) options])
                (PageYielded (marker_at (k + P)) options) fuel Hsize)
      as (pages & outcome & reqs & -> & Hoffsets & Hcases);
      [lia | right; split; [lia|reflexivity] | lia |].
    exists ({| items := queues; continuationToken := marker_at (k + P);
               _response := response |} :: pages),
      outcome, (page_request (marker_at k) options :: reqs).
    split; [now rewrite <- app_assoc|].
    split.
    { constructor; [exact Hfirst|].
      apply (Forall_impl _ (P := fun w => exists j, offset_of w = Some j
               /\ (j = (k + P)%nat \/ (j < List.length coll)%nat)));
        [|exact Hoffsets].
      intros w (j & Hj & Hcase). exists j. split; [exact Hj|]. right. lia. }
    destruct Hcases as [(-> & Hconcat & Hlen & Hreqs & Hadv)
                       |(response' & -> & (e & He) & Hbound & Hreqs & Hclimb)].
    + left. split; [reflexivity|]. split; [|split; [|split]].
      * cbn [map List.concat items]. now rewrite Hsplit, Hconcat.
      * cbn [List.length]. rewrite Hlen.
        replace (List.length coll - (k + P))%nat
          with (List.length coll - k - P)%nat by lia.
        rewrite <- pages_of_step; [reflexivity | lia].
      * cbn [List.length]. now rewrite Hreqs.
      * cbn [map advancing continuationToken]. right. exists (k + P)%nat.
        split; [lia|]. split; [exact Hmarker|]. split; [|exact Hadv].
        destruct pages; [|discriminate].
        cbn [List.length] in Hlen. lia.
    + right. exists response'. split; [reflexivity|].
      split; [|split; [|split]].
      * exists e. now rewrite Hsplit, He.
      * cbn [map List.concat items]. rewrite length_app. lia.
      * cbn [List.length]. now rewrite Hreqs.
      * cbn [map climbing continuationToken]. exists (k + P)%nat.
        split; [lia|]. split; [exact Hmarker|exact Hclimb].
  - (* no more pages than the bound allows *)
    apply Nat.ltb_ge in Hmore.
    destruct fuel as [|fuel]; [lia|].
    cbn [forAwaitPages listQueuesPage_next]. rewrite Htoken.
    exists [{| items := queues; continuationToken := marker;
               _response := response |}],
      Completed, [page_request (marker_at k) options].
    split; [reflexivity|]. split; [now constructor|].
    left. split; [reflexivity|].
    split; [|split; [|split]].
    + cbn [map List.concat items]. rewrite app_nil_r, <- Hd.
      rewrite firstn_all2; [reflexivity|]. rewrite length_skipn. lia.
    + cbn [List.length]. rewrite pages_of_small; lia.
    + reflexivity.
    + cbn [map advancing continuationToken]. left.
      split; [assumption|reflexivity].
Qed.

(** The requests of a scan carry on the wire the offsets they ask for, as
    long as the offsets stay within [2^53]. *)
Lemma offsets_sent (k : nat) (reqs : list (WebResource OperationOptions)) :
  Forall (fun w => exists j, offset_of w = Some j
                             /\ (j = k \/ (j < List.length coll)%nat)) reqs ->
  (Z.of_nat (Nat.max k (List.length coll)) <= 2 ^ 53)%Z ->
  Forall (fun w => exists j, offset_of w = Some j
                             /\ skip_sent w = Some (Z.of_nat j)) reqs.
Proof.
  intros Hreqs Hbound. eapply Forall_impl; [|exact Hreqs].
  cbv beta. intros w (j & Hj & Hcase). exists j. split; [exact Hj|].
  apply offset_of_sent; [exact Hj | lia].
Qed.

Lemma token_integer_decimal (j : nat) :
  token_integer (TString (decimal j)) = Some (Z.of_nat j).
Proof.
  unfold token_integer. cbn [Number]. now rewrite StringToNumber_decimal.
Qed.

Lemma advancing_increasing (ts : list Token) :
  forall k, advancing k ts -> strictly_increasing ts = true.
Proof.
  induction ts as [|t1 ts IH]; intros k Hadv; [reflexivity|].
  destruct ts as [|t2 ts]; [reflexivity|].
  cbn [advancing] in Hadv.
  destruct Hadv as [[_ Hnil]|(j & Hkj & -> & _ & Hadv)]; [discriminate|].
  change (strictly_increasing (TString (decimal j) :: t2 :: ts))
    with ((if truthy t2 then
             match token_integer (TString (decimal j)), token_integer t2 with
             | Some a, Some b => (0 <=? a)%Z && (a <? b)%Z
             | _, _ => false
             end
           else true) && strictly_increasing (t2 :: ts)).
  rewrite (IH j Hadv), andb_true_r.
  cbn [advancing] in Hadv.
  destruct Hadv as [[-> _]|(j2 & Hj & -> & _ & _)]; [reflexivity|].
  rewrite !token_integer_decimal.
  destruct (truthy _); [|reflexivity].
  apply andb_true_intro. split; [apply Z.leb_le | apply Z.ltb_lt]; lia.
Qed.

Lemma climbing_increasing (ts : list Token) :
  forall k, climbing k ts -> strictly_increasing ts = true.
Proof.
  induction ts as [|t1 ts IH]; intros k Hclimb; [reflexivity|].
  destruct ts as [|t2 ts]; [reflexivity|].
  cbn [climbing] in Hclimb.
  destruct Hclimb as (j & Hkj & -> & Hclimb).
  change (strictly_increasing (TString (decimal j) :: t2 :: ts))
    with ((if truthy t2 then
             match token_integer (TString (decimal j)), token_integer t2 with
             | Some a, Some b => (0 <=? a)%Z && (a <? b)%Z
             | _, _ => false
             end
           else true) && strictly_increasing (t2 :: ts)).
  rewrite (IH j Hclimb), andb_true_r.
  cbn [climbing] in Hclimb.
  destruct Hclimb as (j2 & Hj & -> & _).
  rewrite !token_integer_decimal.
  destruct (truthy _); [|reflexivity].
  apply andb_true_intro. split; [apply Z.leb_le | apply Z.ltb_lt]; lia.
Qed.

(** C4, as the code has it.  Against a service that serves a collection of
    [N] records in pages of [P > 0] and sends a next link exactly while
    records remain past the page, iterating [getQueues()] goes one of two
    ways.  When the decoder throws on none of the records, it yields the
    decoded records in order, [N] items when every record decodes, through
    [max 1 (ceil (N / P))] requests, one per page, and completes without
    error at the page whose continuation token is absent; for the empty
    collection that is one request, answered by an empty page.  When the
    decoder throws on a record, it yields the items of the pages before the
    one of that record and fails with the parse error.  Either way the
    requests carry on the wire the offsets they ask for when the collection
    has no more than [2^53] records. *)
Theorem listAll_pagination (options : OperationOptions) (fuel : nat) :
  (2 * List.length coll + 2 < fuel)%nat ->
  match decode_all coll with
  | inr queues =>
      exists pages reqs,
        forAwaitAll fuel (getQueues options) [] = (queues, Completed, reqs)
        /\ forAwaitPages fuel
             (PageStart TUndefined
                {| maxPageSize := None; operation_options := options |}) []
           = (pages, Completed, reqs)
        /\ List.concat (map items pages) = queues
        /\ List.length reqs = Nat.max 1 (pages_of (List.length coll) P)
        /\ List.length pages = List.length reqs
        /\ advancing 0 (map continuationToken pages)
        /\ (forall f : Raw -> QueueProperties,
              (forall raw, In raw coll -> buildQueue raw = inr (Some (f raw))) ->
              queues = map f coll
              /\ List.length queues = List.length coll)
        /\ ((Z.of_nat (List.length coll) <= 2 ^ 53)%Z ->
            Forall (fun w => exists j, offset_of w = Some j
                                       /\ skip_sent w = Some (Z.of_nat j)) reqs)
  | inl _ =>
      exists pages (response : HttpOperationResponse Raw) reqs,
        forAwaitAll fuel (getQueues options) []
        = (List.concat (map items pages), Failed (parse_error response), reqs)
        /\ forAwaitPages fuel
             (PageStart TUndefined
                {| maxPageSize := None; operation_options := options |}) []
           = (pages, Failed (parse_error response), reqs)
        /\ List.length reqs = S (List.length pages)
        /\ climbing 0 (map continuationToken pages)
        /\ ((Z.of_nat (List.length coll) <= 2 ^ 53)%Z ->
            Forall (fun w => exists j, offset_of w = Some j
                                       /\ skip_sent w = Some (Z.of_nat j)) reqs)
  end.
Proof.
  intros Hfuel.
  destruct (scan_from (List.length coll) 0
              {| maxPageSize := None; operation_options := options |} []
              (PageStart TUndefined
                 {| maxPageSize := None; operation_options := options |})
              (List.length coll + 2) eq_refl)
    as (pages & outcome & reqs & Hpages & Hoffsets & Hcases);
    [nia | now left | lia |].
  cbn [app skipn] in Hpages, Hcases. rewrite Nat.sub_0_r in Hcases.
  assert (Hsent : (Z.of_nat (List.length coll) <= 2 ^ 53)%Z ->
            Forall (fun w => exists j, offset_of w = Some j
                                       /\ skip_sent w = Some (Z.of_nat j)) reqs)
    by (intros Hbound; apply (offsets_sent 0 reqs Hoffsets);
        now rewrite Nat.max_0_l).
  destruct Hcases as [(-> & Hconcat & Hlen & Hreqs & Hadv)
                     |(response & -> & (e & He) & Hbound & Hreqs & Hclimb)].
  - rewrite Hconcat. exists pages, reqs.
    split; [|split; [|split; [|split; [|split; [|split; [|split]]]]]].
    + unfold getQueues, listQueuesAll.
      apply (forAwaitAll_flatten (List.length coll + 2));
        [assumption|discriminate|].
      pose proof (decode_all_le _ _ Hconcat). lia.
    + apply (forAwaitPages_mono (List.length coll + 2));
        [assumption | discriminate | lia].
    + reflexivity.
    + lia.
    + lia.
    + assumption.
    + intros f Hf. rewrite (decode_all_decodable coll f Hf) in Hconcat.
      injection Hconcat as <-. split; [reflexivity|apply length_map].
    + exact Hsent.
  - rewrite He. exists pages, response, reqs.
    split; [|split; [|split; [|split; [|exact Hsent]]]].
    + unfold getQueues, listQueuesAll.
      apply (forAwaitAll_flatten (List.length coll + 2));
        [assumption|discriminate|lia].
    + apply (forAwaitPages_mono (List.length coll + 2));
        [assumption | discriminate | lia].
    + assumption.
    + assumption.
Qed.

(** C8, as the code has it.  Against a service that serves a collection in
    pages of [P > 0] records and names the next offset in each next link, a
    scan by [byPage], from the start or from the token of an offset, ends,
    and its consecutive continuation tokens are strictly increasing
    non-negative integers, each the numeral of an offset past the one
    before.  The scan completes, the last token being the absent one of the
    last page, unless the decoder throws on a record past the offset, which
    ends it with the parse error after the pages before that record's; it
    completes whenever the decoder throws on no record of the collection.
    The requests carry on the wire the offsets they ask for when the
    offsets stay within [2^53]. *)
Theorem scan_tokens_increase (options : OperationOptions) (k fuel : nat) :
  (List.length coll + 2 <= fuel)%nat ->
  exists g pages outcome reqs,
    byPage options {| settings_continuationToken := marker_at k;
                      settings_maxPageSize := None |} [] = (inr g, [])
    /\ forAwaitPages fuel g [] = (pages, outcome, reqs)
    /\ strictly_increasing (map continuationToken pages) = true
    /\ ((outcome = Completed /\ advancing k (map continuationToken pages))
        \/ (exists response : HttpOperationResponse Raw,
              outcome = Failed (parse_error response)
              /\ climbing k (map continuationToken pages)
              /\ exists e, decode_all (skipn k coll) = inl e))
    /\ ((forall raw, In raw coll -> exists o, buildQueue raw = inr o) ->
        outcome = Completed /\ advancing k (map continuationToken pages))
    /\ ((Z.of_nat (Nat.max k (List.length coll)) <= 2 ^ 53)%Z ->
        Forall (fun w => exists j, offset_of w = Some j
                                   /\ skip_sent w = Some (Z.of_nat j)) reqs).
Proof.
  intros Hfuel.
  set (page_options := {| maxPageSize := None; operation_options := options |}).
  destruct (scan_from (List.length coll) k page_options []
              (PageStart (marker_at k) page_options) fuel eq_refl)
    as (pages & outcome & reqs & Hpages & Hoffsets & Hcases);
    [nia | now left | lia |].
  exists (PageStart (marker_at k) page_options), pages, outcome, reqs.
  cbn [app] in Hoffsets.
  assert (Hsent := offsets_sent k reqs Hoffsets).
  split; [|split; [exact Hpages|]].
  - rewrite byPage_unfold.
    cbn [settings_continuationToken settings_maxPageSize].
    destruct k as [|k]; [reflexivity|].
    cbn [marker_at]. rewrite throwIfInvalidContinuationToken_string.
    now rewrite StringToNumber_decimal, ge_zero_of_nat.
  - destruct Hcases as [(-> & _ & _ & _ & Hadv)
                       |(response & -> & (e & He) & _ & _ & Hclimb)].
    + split; [exact (advancing_increasing _ k Hadv)|].
      split; [left; now split|]. split; [intros _; now split | exact Hsent].
    + split; [exact (climbing_increasing _ k Hclimb)|].
      split; [right; exists response; repeat split; eauto|].
      split; [|exact Hsent].
      intros Hall. exfalso.
      assert (Hd : exists queues, decode_all (skipn k coll) = inr queues).
      { apply decode_all_returns. intros raw Hraw. apply Hall.
        rewrite <- (firstn_skipn k coll). apply in_or_app. now right. }
      destruct Hd as (queues & Hd). congruence.
Qed.

End Served.

(** *** The services of the examples *)

Lemma paged_service_serves (malformed : nat -> bool) (coll : list nat)
  (P : nat) :
  serves (paged_service malformed coll P) coll P.
Proof.
  intros w k _ Hoff _.
  cbn [executeAtomXmlOperation paged_service]. rewrite Hoff.
  destruct (k + P <? List.length coll)%nat.
  - exists 200%Z, (Some (nextLink_prefix ++ decimal (k + P))%string),
      (TString (decimal (k + P))).
    split; [reflexivity|]. split; reflexivity.
  - exists 200%Z, None, TUndefined.
    split; [reflexivity|]. split; reflexivity.
Qed.

Lemma refusing_service_serves (coll : list nat) (P : nat) :
  serves (refusing_service coll P) coll P.
Proof.
  intros w k _ Hoff _.
  cbn [executeAtomXmlOperation refusing_service paged_service]. rewrite Hoff.
  destruct (k + P <? List.length coll)%nat.
  - exists 200%Z, (Some (nextLink_prefix ++ decimal (k + P))%string),
      (TString (decimal (k + P))).
    split; [reflexivity|]. split; reflexivity.
  - exists 200%Z, None, TUndefined.
    split; [reflexivity|]. split; reflexivity.
Qed.

(** Five records served two by two: one of them undecodable, and then one
    of them refused by the decoder. *)
Lemma listAll_pagination_witness :
  (exists pages reqs,
     forAwaitAll (collaborators := paged_service (Nat.eqb 0) [3; 1; 0; 1; 5] 2)
       13 (getQueues tt) []
     = ([3; 1; 1; 5]%nat, Completed, reqs)
     /\ forAwaitPages
          (collaborators := paged_service (Nat.eqb 0) [3; 1; 0; 1; 5] 2) 13
          (PageStart TUndefined
             {| maxPageSize := None; operation_options := tt |}) []
        = (pages, Completed, reqs)
     /\ List.concat (map items pages) = [3; 1; 1; 5]%nat
     /\ List.length reqs = 3%nat
     /\ List.length pages = List.length reqs
     /\ advancing 0 (map continuationToken pages))
  /\ (exists (pages : list (EntitiesResponse nat nat))
             (response : HttpOperationResponse nat) reqs,
        forAwaitAll (collaborators := refusing_service [3; 1; 5; 0; 1] 2)
          13 (getQueues tt) []
        = (List.concat (map items pages), Failed (parse_error response), reqs)
        /\ List.concat (map items pages) = [3; 1]%nat
        /\ List.length reqs = 2%nat).
Proof.
  split.
  - destruct (listAll_pagination
                (collaborators := paged_service (Nat.eqb 0) [3; 1; 0; 1; 5] 2)
                [3; 1; 0; 1; 5]%nat 2 ltac:(lia)
                (paged_service_serves _ _ _) tt 13 ltac:(cbn; lia))
      as (pages & reqs & H1 & H2 & H3 & H4 & H5 & H6 & _).
    exists pages, reqs. repeat split; assumption.
  - destruct (listAll_pagination
                (collaborators := refusing_service [3; 1; 5; 0; 1] 2)
                [3; 1; 5; 0; 1]%nat 2 ltac:(lia)
                (refusing_service_serves _ _) tt 13 ltac:(cbn; lia))
      as (pages & response & reqs & H1 & H2 & H3 & _).
    exists pages, response, reqs. split; [exact H1|].
    vm_compute in H2. injection H2 as <- _ <-. split; reflexivity.
Defined.

Lemma scan_tokens_increase_witness :
  exists g pages reqs,
    byPage tt {| settings_continuationToken := marker_at 2;
                 settings_maxPageSize := None |} [] = (inr g, [])
    /\ forAwaitPages (collaborators := paged_service (Nat.eqb 0) [3; 1; 0; 1; 5] 1)
         7 g [] = (pages, Completed, reqs)
    /\ strictly_increasing (map continuationToken pages) = true
    /\ advancing 2 (map continuationToken pages).
Proof.
  destruct (scan_tokens_increase
              (collaborators := paged_service (Nat.eqb 0) [3; 1; 0; 1; 5] 1)
              [3; 1; 0; 1; 5]%nat 1 ltac:(lia)
              (paged_service_serves _ _ _) tt 2 7 ltac:(cbn; lia))
    as (g & pages & outcome & reqs & H1 & H2 & H3 & _ & H4 & _).
  destruct H4 as [-> H4]; [intros raw _; eexists; reflexivity|].
  exists g, pages, reqs. repeat split; assumption.
Defined.

(** C4, as stated, fails: the empty collection takes one request, where
    [ceil (0 / 2)] is zero. *)
Lemma listAll_empty_collection :
  pages_of 0 2 = 0%nat
  /\ forAwaitAll (collaborators := paged_service (Nat.eqb 0) [] 2)
       5 (getQueues tt) []
     = ([], Completed,
        [ {| path := "$Resources/Queues"; queryParams := [];
             operationOptions := tt |} ]).
Proof. split; reflexivity. Qed.

(** C8, as stated, fails: when the service repeats a next link, the client
    hands the same token back page after page. *)
Lemma scan_tokens_repeat :
  let c := fixed_service [7]%nat (Some (nextLink_prefix ++ "5")%string) in
  let '(pages, outcome, _) :=
    forAwaitPages (collaborators := c) 3
      (PageStart TUndefined {| maxPageSize := None; operation_options := tt |})
      [] in
  map continuationToken pages = [TString "5"; TString "5"; TString "5"]
  /\ strictly_increasing (map continuationToken pages) = false.
Proof. vm_compute. split; reflexivity. Qed.

End ScanFacts.

(** ** Settlement after the receiver is closed *)

Module SettlementFacts.

Import Settlement.

Lemma dispose_unfold (d : DispositionType) (m : ReceivedMessage) :
  dispose d m =
    if linkOpen m then forward_disposition d m
    else if usesSessions m then (inl (link_severed (verb d)), m)
    else forward_disposition d m.
Proof. unfold dispose. destruct (linkOpen m), (usesSessions m); reflexivity. Qed.

(** C1.  On a session-bound message whose link is closed, [complete()],
    [abandon()], [defer()] and [deadLetter()] each reject with the error
    [Failed to <verb> the message as the AMQP link with which the message
    was received is no longer alive.], the verb being the one invoked, and
    [renewLock()] rejects too; these are the outcomes the test-suite
    asserts for an entity with sessions. *)
Theorem session_settlement_after_close (m : ReceivedMessage) :
  usesSessions m = true ->
  linkOpen m = false ->
  (forall d : DispositionType,
     dispose d m = (inl (link_severed (verb d)), m)
     /\ kind (link_severed (verb d)) = LinkSevered)
  /\ message (link_severed (verb complete))
     = "Failed to complete the message as the AMQP link with which the message was received is no longer alive."
  /\ message (link_severed (verb abandon))
     = "Failed to abandon the message as the AMQP link with which the message was received is no longer alive."
  /\ message (link_severed (verb defer))
     = "Failed to defer the message as the AMQP link with which the message was received is no longer alive."
  /\ message (link_severed (verb deadletter))
     = "Failed to deadletter the message as the AMQP link with which the message was received is no longer alive."
  /\ (exists r, renewLock m = (inl r, m))
  /\ (exists r, renewLock_as_specified m = (inl r, m))
  /\ testComplete as_tested true = true
  /\ testAbandon as_tested true = true
  /\ testDefer as_tested true = true
  /\ testDeadletter as_tested true = true
  /\ testRenewLock as_tested true = true.
Proof.
  intros Hs Hl. repeat split; try reflexivity.
  - rewrite dispose_unfold, Hl, Hs. reflexivity.
  - unfold renewLock. rewrite Hs. now eexists.
  - unfold renewLock_as_specified. rewrite Hl. now eexists.
Qed.

Lemma session_settlement_after_close_witness :
  let m := receiver_close (sendReceiveMsg true) in
  (forall d : DispositionType,
     dispose d m = (inl (link_severed (verb d)), m)
     /\ kind (link_severed (verb d)) = LinkSevered)
  /\ (exists r, renewLock m = (inl r, m)).
Proof.
  intros m.
  destruct (session_settlement_after_close m eq_refl eq_refl)
    as (H1 & _ & _ & _ & _ & H2 & _).
  split; assumption.
Defined.

(** C2, as the test-suite has it.  On a message of an entity without
    sessions whose link is closed, no disposition and no renewal fails with
    [LinkSevered]; while the lock is held, [complete()], [abandon()],
    [defer()] and [deadLetter()] succeed, and so does [renewLock()], which
    extends the lock: the closed link blocks neither. *)
Theorem plain_settlement_after_close (m : ReceivedMessage) :
  usesSessions m = false ->
  linkOpen m = false ->
  (forall d r m', dispose d m = (inl r, m') -> kind r <> LinkSevered)
  /\ (forall r m', renewLock m = (inl r, m') -> kind r <> LinkSevered)
  /\ (state m = Locked ->
      (forall d, dispose d m = (inr tt, with_state Settled m))
      /\ exists m',
           renewLock m = (inr (lockedUntilUtc m + lockDuration)%Z, m')
           /\ (lockedUntilUtc m < lockedUntilUtc m')%Z
           /\ state m' = Locked)
  /\ testComplete as_tested false = true
  /\ testAbandon as_tested false = true
  /\ testDefer as_tested false = true
  /\ testDeadletter as_tested false = true
  /\ testRenewLock as_tested false = true.
Proof.
  intros Hs Hl.
  split; [|split; [|split; [|repeat split]]].
  - intros d r m'. rewrite dispose_unfold, Hl, Hs. unfold forward_disposition.
    destruct (state m); intros H; inversion H; subst; discriminate.
  - intros r m'. unfold renewLock, forward_renewal. rewrite Hs.
    destruct (state m); intros H; inversion H; subst; discriminate.
  - intros Hlocked. split.
    + intros d. rewrite dispose_unfold, Hl, Hs. unfold forward_disposition.
      now rewrite Hlocked.
    + unfold renewLock, forward_renewal. rewrite Hs, Hlocked.
      eexists. split; [reflexivity|]. cbn [lockedUntilUtc state].
      unfold lockDuration. split; [lia|reflexivity].
Qed.

Lemma plain_settlement_after_close_witness :
  let m := receiver_close (sendReceiveMsg false) in
  (forall d, dispose d m = (inr tt, with_state Settled m))
  /\ exists m',
       renewLock m = (inr (lockedUntilUtc m + lockDuration)%Z, m')
       /\ (lockedUntilUtc m < lockedUntilUtc m')%Z
       /\ state m' = Locked.
Proof.
  intros m.
  destruct (plain_settlement_after_close m eq_refl eq_refl)
    as (_ & _ & H & _).
  exact (H eq_refl).
Defined.

(** C2, as stated, fails: after the receiver is closed, [renewLock()] on a
    message of an entity without sessions resolves to the renewed lock, as
    [testRenewLock] requires; a [renewLock()] that rejected there, as the
    design document has it, would not pass that test. *)
Lemma renewLock_after_close_succeeds :
  let m := receiver_close (sendReceiveMsg false) in
  usesSessions m = false
  /\ linkOpen m = false
  /\ fst (renewLock m) = inr 60000%Z
  /\ testRenewLock as_tested false = true
  /\ fst (renewLock_as_specified m) = inl (link_severed "renewLock")
  /\ testRenewLock as_specified false = false.
Proof. repeat split. Qed.

(** C9, as the guard of the design document has it.  A message whose lock
    is held, and whose link is open or whose entity has no sessions, is
    settled by a first [complete()], and a second [complete()], like any
    other disposition of the settled message, fails with the
    already-settled error; the transport answers every disposition of a
    settled message that is forwarded to it with that kind.  Settling a
    settled message fails whatever the message, with the already-settled
    kind exactly when the guard forwards the call. *)
Theorem complete_twice (m : ReceivedMessage) :
  state m = Locked ->
  linkOpen m = true \/ usesSessions m = false ->
  exists m1,
    dispose complete m = (inr tt, m1)
    /\ state m1 = Settled
    /\ (forall d, exists r,
          dispose d m1 = (inl r, m1) /\ kind r = AlreadySettled)
    /\ (forall d m', state m' = Settled ->
          exists r, forward_disposition d m' = (inl r, m')
                    /\ kind r = AlreadySettled)
    /\ (forall d m', state m' = Settled ->
          exists r, dispose d m' = (inl r, m')
                    /\ (kind r = AlreadySettled <->
                        linkOpen m' = true \/ usesSessions m' = false)).
Proof.
  intros Hlocked Hlink. exists (with_state Settled m).
  assert (Hforward : forall d m', state m' = Settled ->
            exists r, forward_disposition d m' = (inl r, m')
                      /\ kind r = AlreadySettled).
  { intros d m' H. unfold forward_disposition. rewrite H.
    eexists. split; reflexivity. }
  assert (Hpass : forall d m',
            linkOpen m' = true \/ usesSessions m' = false ->
            dispose d m' = forward_disposition d m').
  { intros d m' H. rewrite dispose_unfold.
    destruct H as [-> | ->]; [reflexivity|]. now destruct (linkOpen m'). }
  split; [|split; [reflexivity|split; [|split; [exact Hforward|]]]].
  - rewrite (Hpass complete m Hlink). unfold forward_disposition.
    now rewrite Hlocked.
  - intros d. rewrite (Hpass d (with_state Settled m) Hlink).
    now apply Hforward.
  - intros d m' Hsettled. rewrite dispose_unfold.
    destruct (Hforward d m' Hsettled) as (r & Hr & Hkind).
    destruct (linkOpen m') eqn:Hopen.
    + exists r. split; [exact Hr|]. split; [now left | intros _; exact Hkind].
    + destruct (usesSessions m') eqn:Hsessions.
      * exists (link_severed (verb d)). split; [reflexivity|].
        cbn [kind link_severed]. split; [discriminate|].
        intros [H|H]; discriminate.
      * exists r. split; [exact Hr|].
        split; [now right | intros _; exact Hkind].
Qed.

Lemma complete_twice_witness :
  exists m1,
    dispose complete (sendReceiveMsg true) = (inr tt, m1)
    /\ exists r, dispose complete m1 = (inl r, m1) /\ kind r = AlreadySettled.
Proof.
  destruct (complete_twice (sendReceiveMsg true) eq_refl (or_introl eq_refl))
    as (m1 & H1 & _ & H2 & _).
  exists m1. split; [exact H1 | exact (H2 complete)].
Defined.

(** C9, as stated, fails: not every received message is settled by a first
    [complete()].  On a session-bound message whose receiver was closed the
    first call fails, with the severed-link error; a session-bound message
    settled before the close gives that same error when it is settled
    again, not the already-settled one; and a message whose lock has
    expired gives the lost-lock error. *)
Lemma complete_refused_first :
  (let m := receiver_close (sendReceiveMsg true) in
   dispose complete m = (inl (link_severed "complete"), m)
   /\ kind (link_severed "complete") = LinkSevered)
  /\ (let m := sendReceiveMsg true in
      let settled := with_state Settled m in
      dispose complete m = (inr tt, settled)
      /\ dispose complete (receiver_close settled)
         = (inl (link_severed "complete"), receiver_close settled))
  /\ (let m := with_state LockExpired (sendReceiveMsg false) in
      exists r, dispose complete m = (inl r, m) /\ kind r = LockLost).
Proof.
  split; [split; reflexivity|]. split; [split; reflexivity|].
  eexists. split; reflexivity.
Qed.

End SettlementFacts.

(** ** More on scans, for any service *)

Module ScanExtras.

Import Paging Service JSFacts TokenFacts PageFacts ScanFacts.

Section Generic.

Context {Raw QueueProperties OperationOptions : Type}.
Context {collaborators : Collaborators Raw QueueProperties OperationOptions}.

Local Notation "'WebResource'" := (WebResource OperationOptions).
Local Notation "'PageOptions'" := (PageOptions OperationOptions).

(** One when the loop ended on an exception. *)
Definition failed (outcome : Outcome) : nat :=
  match outcome with
  | Failed _ => 1
  | _ => 0
  end.

Lemma scan_requests_from (fuel : nat) :
  forall (m : Token) (options : PageOptions) (log : list WebResource) g,
    g = PageStart m options \/ g = PageYielded m options ->
    let '(pages, outcome, log') := forAwaitPages fuel g log in
    log' = log ++ map (fun t => page_request t options)
                    (firstn (List.length pages + failed outcome)
                            (m :: map continuationToken pages)).
Proof.
  induction fuel as [|fuel IH]; intros m options log g Hg.
  - cbn. now rewrite app_nil_r.
  - cbn [forAwaitPages].
    assert (Hround :
      listQueuesPage_next g log = listQueuesPage_round m options log
      \/ listQueuesPage_next g log = (Finished, PageCompleted, log)).
    { destruct Hg as [-> | ->]; cbn [listQueuesPage_next]; [now left|].
      destruct (truthy m); [now left | now right]. }
    destruct Hround as [-> | ->]; [|cbn; now rewrite app_nil_r].
    rewrite listQueuesPage_round_unfold.
    destruct (executeAtomXmlOperation (page_request m options)) as [e|r];
      [reflexivity|].
    destruct (buildListQueuesResponse r) as [e|page]; [reflexivity|].
    specialize (IH (continuationToken page) options
                  (log ++ [page_request m options])
                  (PageYielded (continuationToken page) options)
                  (or_intror eq_refl)).
    destruct (forAwaitPages fuel _ _) as [[rest outcome] log'].
    rewrite IH, <- app_assoc. reflexivity.
Qed.

(** X1.  In a scan by pages every request is the page request for the
    marker in hand, which is the caller's marker at first and the
    continuation token of the page before afterwards, all with the same
    page options; a page costs one request and a failure one more. *)
Theorem scan_requests (fuel : nat) (m : Token) (options : PageOptions)
  (log : list WebResource) :
  let '(pages, outcome, log') :=
    forAwaitPages fuel (PageStart m options) log in
  log' = log ++ map (fun t => page_request t options)
                  (firstn (List.length pages + failed outcome)
                          (m :: map continuationToken pages))
  /\ List.length log'
     = (List.length log + List.length pages + failed outcome)%nat.
Proof.
  pose proof (scan_requests_from fuel m options log _ (or_introl eq_refl)) as H.
  destruct (forAwaitPages fuel (PageStart m options) log)
    as [[pages outcome] log'].
  split; [exact H|].
  rewrite H, length_app, length_map, length_firstn.
  cbn [List.length]. rewrite length_map.
  destruct outcome; cbn [failed]; lia.
Qed.

(** What a scan can fail with: the exception of the transport for one of
    its requests, or the parse error for one of the answers. *)
Definition scan_error (log : list WebResource) (e : Exn) : Prop :=
  (exists w, In w log /\ executeAtomXmlOperation w = inl e)
  \/ (exists w response,
        In w log /\ executeAtomXmlOperation w = inr response
        /\ e = parse_error response).

Lemma listQueuesPage_next_thrown g (log : list WebResource) e g' log' :
  listQueuesPage_next g log = (Thrown e, g', log') ->
  scan_error log' e.
Proof.
  assert (Hround : forall m options,
    listQueuesPage_round m options log = (Thrown e, g', log') ->
    scan_error log' e).
  { intros m options. rewrite listQueuesPage_round_unfold.
    destruct (executeAtomXmlOperation (page_request m options)) as [e0|r] eqn:Hex.
    - intros H. injection H as <- <- <-. left.
      exists (page_request m options). split; [|assumption].
      apply in_or_app. right. now left.
    - unfold buildListQueuesResponse.
      destruct (buildListQueuesResponse_try r); intros H;
        [|discriminate].
      injection H as <- <- <-. right.
      exists (page_request m options), r. repeat split; [|assumption].
      apply in_or_app. right. now left. }
  destruct g as [m options|m options|]; cbn [listQueuesPage_next].
  - apply Hround.
  - destruct (truthy m); [apply Hround | discriminate].
  - discriminate.
Qed.

Lemma scan_error_mono (log log1 log2 : list WebResource) e :
  scan_error log e -> scan_error (log1 ++ log ++ log2) e.
Proof.
  intros [(w & Hin & H)|(w & r & Hin & H1 & H2)]; [left|right].
  - exists w. split; [|assumption].
    apply in_or_app. right. apply in_or_app. now left.
  - exists w, r. repeat split; try assumption.
    apply in_or_app. right. apply in_or_app. now left.
Qed.

Lemma listQueuesPage_next_grows g (log : list WebResource) :
  exists reqs, snd (listQueuesPage_next g log) = log ++ reqs.
Proof.
  rewrite listQueuesPage_next_log.
  destruct (listQueuesPage_next g []) as [[r g'] reqs]. now exists reqs.
Qed.

Lemma forAwaitPages_failed (fuel : nat) :
  forall g (log : list WebResource),
    let '(_, outcome, log') := forAwaitPages fuel g log in
    forall e, outcome = Failed e -> scan_error log' e.
Proof.
  induction fuel as [|fuel IH]; intros g log; [cbn; discriminate|].
  cbn [forAwaitPages].
  destruct (listQueuesPage_next g log) as [[[page| |e0] g'] log1] eqn:Hnext.
  - specialize (IH g' log1).
    destruct (forAwaitPages fuel g' log1) as [[rest outcome] log'].
    exact IH.
  - discriminate.
  - intros e H. injection H as <-.
    exact (listQueuesPage_next_thrown _ _ _ _ _ Hnext).
Qed.

Lemma listQueuesAll_next_thrown (fuel : nat) :
  forall g (log : list WebResource) e g' log',
    listQueuesAll_next fuel g log = (Some (Thrown e), g', log') ->
    scan_error log' e.
Proof.
  induction fuel as [|fuel IH]; intros [pages [|queue rest]] log e g' log';
    cbn [listQueuesAll_next segment segments]; try discriminate.
  destruct (listQueuesPage_next pages log) as [[[page| |e0] pages'] log1]
    eqn:Hnext.
  - apply IH.
  - discriminate.
  - intros H. injection H as <- <- <-.
    exact (listQueuesPage_next_thrown _ _ _ _ _ Hnext).
Qed.

Lemma forAwaitAll_failed (fuel : nat) :
  forall g (log : list WebResource),
    let '(_, outcome, log') := forAwaitAll fuel g log in
    forall e, outcome = Failed e -> scan_error log' e.
Proof.
  induction fuel as [|fuel IH]; intros g log; [cbn; discriminate|].
  rewrite forAwaitAll_S.
  destruct (listQueuesAll_next (S fuel) g log) as [[[[queue| |e0]|] g'] log1]
    eqn:Hnext; cbn [resume]; try discriminate.
  - specialize (IH g' log1).
    destruct (forAwaitAll fuel g' log1) as [[rest outcome] log'].
    exact IH.
  - intros e H. injection H as <-.
    exact (listQueuesAll_next_thrown _ _ _ _ _ _ Hnext).
Qed.

(** X2.  A scan, by pages or by items, that starts with an empty log and
    fails, fails with the exception the transport threw for one of its
    requests, unchanged, or with the [PARSE_ERROR] [RestError] for one of
    the answers; the client raises nothing else during a scan. *)
Theorem scan_failures (fuel : nat) (options : OperationOptions)
  (settings : PageSettings) :
  (let '(_, outcome, log') := forAwaitAll fuel (getQueues options) [] in
   forall e, outcome = Failed e -> scan_error log' e)
  /\ (forall g,
        fst (byPage options settings []) = inr g ->
        let '(_, outcome, log') := forAwaitPages fuel g [] in
        forall e, outcome = Failed e -> scan_error log' e).
Proof.
  split.
  - apply forAwaitAll_failed.
  - intros g _. apply forAwaitPages_failed.
Qed.

(** X3.  The items [getQueues()] yields are the items of the pages its
    [byPage()] yields, page after page, and the two iterations end alike
    after the same requests, whatever the service answers. *)
Theorem listAll_flattens_pages (options : OperationOptions) (f fuel : nat)
  (log : list WebResource) pages outcome log' :
  forAwaitPages f
    (PageStart TUndefined {| maxPageSize := None; operation_options := options |})
    log = (pages, outcome, log') ->
  outcome <> OutOfFuel ->
  (f + List.length (List.concat (map items pages)) < fuel)%nat ->
  byPage options {| settings_continuationToken := TUndefined;
                    settings_maxPageSize := None |} log
  = (inr (PageStart TUndefined
            {| maxPageSize := None; operation_options := options |}), log)
  /\ forAwaitAll fuel (getQueues options) log
     = (List.concat (map items pages), outcome, log').
Proof.
  intros Hp Hout Hfuel. split; [reflexivity|].
  exact (forAwaitAll_flatten f _ log pages outcome log' fuel Hp Hout Hfuel).
Qed.

(** X4.  When the continuation token of a page leads to the very request
    that fetched the page (the service repeats a next link, or names the
    offset zero at the start), the scan never ends: whatever the fuel, it
    yields that page over and over, one request each. *)
Theorem scan_never_ends (m : Token) (options : PageOptions) response page :
  executeAtomXmlOperation (page_request m options) = inr response ->
  buildListQueuesResponse response = inr page ->
  truthy (continuationToken page) = true ->
  page_request (continuationToken page) options = page_request m options ->
  forall (fuel : nat) (log : list WebResource),
    forAwaitPages fuel (PageStart m options) log
    = (repeat page fuel, OutOfFuel,
       log ++ repeat (page_request m options) fuel).
Proof.
  intros Hex Hbuild Htruthy Hsame.
  assert (Hround : forall t log,
            page_request t options = page_request m options ->
            listQueuesPage_round t options log
            = (Value page, PageYielded (continuationToken page) options,
               log ++ [page_request m options])).
  { intros t log Ht. rewrite listQueuesPage_round_unfold, Ht, Hex, Hbuild.
    reflexivity. }
  assert (Hloop : forall fuel log,
            forAwaitPages fuel (PageYielded (continuationToken page) options) log
            = (repeat page fuel, OutOfFuel,
               log ++ repeat (page_request m options) fuel)).
  { induction fuel as [|fuel IH]; intros log.
    - cbn. now rewrite app_nil_r.
    - cbn [forAwaitPages listQueuesPage_next]. rewrite Htruthy.
      rewrite (Hround _ log Hsame), IH, <- app_assoc. reflexivity. }
  intros [|fuel] log.
  - cbn. now rewrite app_nil_r.
  - cbn [forAwaitPages listQueuesPage_next].
    rewrite (Hround m log eq_refl), Hloop, <- app_assoc. reflexivity.
Qed.

(** X5.  A scan can be taken up where a page left it: [byPage] given the
    continuation token of a page, when there is one and [byPage] accepts
    it, yields the pages the first scan went on to yield, and ends as it
    did. *)
Theorem byPage_resumes (options : OperationOptions) (size : option JSNumber)
  (m : Token) (fuel : nat) (log : list WebResource)
  page rest outcome log' g :
  forAwaitPages (S fuel)
    (PageStart m {| maxPageSize := size; operation_options := options |}) log
  = (page :: rest, outcome, log') ->
  truthy (continuationToken page) = true ->
  byPage options {| settings_continuationToken := continuationToken page;
                    settings_maxPageSize := size |} [] = (inr g, []) ->
  forAwaitPages fuel g
    (log ++ [page_request m
               {| maxPageSize := size; operation_options := options |}])
  = (rest, outcome, log').
Proof.
  set (page_options := {| maxPageSize := size; operation_options := options |}).
  intros Hscan Htruthy Hby.
  rewrite byPage_unfold in Hby.
  cbn [settings_continuationToken settings_maxPageSize] in Hby.
  destruct (throwIfInvalidContinuationToken (continuationToken page));
    [discriminate|].
  injection Hby as <-. fold page_options.
  cbn [forAwaitPages listQueuesPage_next] in Hscan.
  rewrite listQueuesPage_round_unfold in Hscan.
  destruct (executeAtomXmlOperation (page_request m page_options)) as [e|r];
    [discriminate|].
  destruct (buildListQueuesResponse r) as [e|page0]; [discriminate|].
  destruct (forAwaitPages fuel (PageYielded (continuationToken page0) page_options)
              (log ++ [page_request m page_options]))
    as [[rest0 outcome0] log0] eqn:Hrest.
  injection Hscan as -> -> -> ->.
  rewrite <- Hrest.
  destruct fuel as [|fuel]; [reflexivity|].
  cbn [forAwaitPages listQueuesPage_next]. now rewrite Htruthy.
Qed.

(** X6.  A next link that has no [$skip] parameter gives the page the
    token [null]: the page is returned whenever the decoder throws on none
    of its records, the scan ends at that page, and [byPage] refuses the
    token when it is handed back. *)
Theorem next_link_without_skip (url : string) ps response raws :
  (url =? "") = false ->
  parseURL url = Some ps ->
  (forall k v, In (k, v) ps -> (k =? "$skip") = false) ->
  parsedBody response = BodyArray raws (Some url) ->
  getMarkerFromNextLinkUrl (Some url) = inr TNull
  /\ (forall queues,
        decode_all raws = inr queues ->
        buildListQueuesResponse response
        = inr {| items := queues; continuationToken := TNull;
                 _response := response |})
  /\ (forall page,
        buildListQueuesResponse response = inr page ->
        continuationToken page = TNull
        /\ (forall (options : PageOptions) (fuel : nat) (log : list WebResource),
              forAwaitPages (S fuel)
                (PageYielded (continuationToken page) options) log
              = ([], Completed, log))
        /\ forall (options : OperationOptions) size (log : list WebResource),
             byPage options
               {| settings_continuationToken := continuationToken page;
                  settings_maxPageSize := size |} log
             = (inl (Error "Invalid continuationToken null provided"), log)).
Proof.
  intros Hurl Hparse Hps Hbody.
  assert (Hget : forall ps', (forall k v, In (k, v) ps' -> (k =? "$skip") = false) ->
                 searchParams_get "$skip" ps' = TNull).
  { induction ps' as [|[k v] ps' IH]; intros H; [reflexivity|].
    cbn [searchParams_get]. rewrite (H k v (or_introl eq_refl)).
    apply IH. intros k' v' Hin. apply (H k' v'). now right. }
  assert (Hmarker : getMarkerFromNextLinkUrl (Some url) = inr TNull).
  { unfold getMarkerFromNextLinkUrl. rewrite Hurl, Hparse.
    change (XML_METADATA_MARKER ++ "skip")%string with "$skip".
    now rewrite (Hget ps Hps). }
  split; [exact Hmarker|]. split.
  - intros queues Hd.
    rewrite (buildListQueuesResponse_array response raws (Some url) TNull
               Hbody Hmarker).
    now rewrite Hd.
  - intros page Hpage.
    destruct (buildListQueuesResponse_returns response page Hpage)
      as (raws' & nl & Hbody' & Hm & _ & _).
    rewrite Hbody in Hbody'. injection Hbody' as _ <-.
    rewrite Hmarker in Hm. injection Hm as <-.
    repeat split.
Qed.

(** X7.  Offsets up to [2^53] make the round trip through tokens: [byPage]
    accepts the decimal numeral of the offset, and the first request of its
    scan carries that offset, binary64 holding it exactly.  Past [2^53] the
    round trip fails: for the token of [2^53 + 1] the request carries
    [2^53]. *)
Theorem decimal_token_round_trip (n : nat) (options : OperationOptions)
  (size : option JSNumber) (log : list WebResource) :
  (Z.of_nat n <= 2 ^ 53)%Z ->
  byPage options {| settings_continuationToken := TString (decimal n);
                    settings_maxPageSize := size |} log
  = (inr (PageStart (TString (decimal n))
            {| maxPageSize := size; operation_options := options |}), log)
  /\ offset_of (page_request (TString (decimal n))
                  {| maxPageSize := size; operation_options := options |})
     = Some n
  /\ skip_sent (page_request (TString (decimal n))
                  {| maxPageSize := size; operation_options := options |})
     = Some (Z.of_nat n)
  /\ byPage options {| settings_continuationToken := TString "9007199254740993";
                       settings_maxPageSize := size |} log
     = (inr (PageStart (TString "9007199254740993")
               {| maxPageSize := size; operation_options := options |}), log)
  /\ skip_sent (page_request (TString "9007199254740993")
                  {| maxPageSize := size; operation_options := options |})
     = Some 9007199254740992%Z.
Proof.
  intros Hn.
  assert (Hoff : offset_of (page_request (TString (decimal n))
                   {| maxPageSize := size; operation_options := options |})
                 = Some n).
  { unfold offset_of, page_request, list_options. cbn [queryParams].
    rewrite queryParams_of_skip. cbn [Number].
    rewrite StringToNumber_decimal.
    destruct n as [|n].
    + replace (truthy_number (of_nat 0)) with false
        by (symmetry; vm_compute; reflexivity).
      cbn [app maxPageSize].
      destruct size as [top|]; [|reflexivity].
      destruct (truthy_number top); reflexivity.
    + rewrite truthy_of_nat by lia. unfold of_nat.
      cbn [app param String.eqb Ascii.eqb Bool.eqb Qden Qnum Pos.eqb andb].
      replace (0 <=? Z.of_nat (S n))%Z with true
        by (symmetry; apply Z.leb_le; lia).
      now rewrite Nat2Z.id. }
  assert (Hnumber : Number (TString "9007199254740993")
                    = Finite false (9007199254740993 # 1))
    by (vm_compute; reflexivity).
  split; [|split; [exact Hoff|split; [exact (offset_of_sent _ n Hoff Hn)|split]]].
  - rewrite byPage_unfold.
    cbn [settings_continuationToken settings_maxPageSize].
    rewrite throwIfInvalidContinuationToken_string.
    now rewrite StringToNumber_decimal, ge_zero_of_nat.
  - rewrite byPage_unfold.
    cbn [settings_continuationToken settings_maxPageSize].
    unfold throwIfInvalidContinuationToken. rewrite Hnumber. reflexivity.
  - unfold skip_sent, page_request, list_options. cbn [queryParams].
    rewrite queryParams_of_skip, Hnumber.
    replace (truthy_number (Finite false (9007199254740993 # 1))) with true
      by (symmetry; vm_compute; reflexivity).
    cbn [app param String.eqb Ascii.eqb Bool.eqb].
    rewrite (proj1 binary64_examples). reflexivity.
Qed.

(** X8.  A page holds nothing but decodings of the records of its
    response, no more of them than there are records, with the marker of
    the next link and the response itself. *)
Theorem page_items_are_decodings response page :
  buildListQueuesResponse response = inr page ->
  exists raws nextLink,
    parsedBody response = BodyArray raws nextLink
    /\ _response page = response
    /\ getMarkerFromNextLinkUrl nextLink = inr (continuationToken page)
    /\ (List.length (items page) <= List.length raws)%nat
    /\ forall queue,
         In queue (items page) <->
         exists raw, In raw raws /\ buildQueue raw = inr (Some queue).
Proof.
  intros Hpage.
  destruct (buildListQueuesResponse_returns response page Hpage)
    as (raws & nl & Hbody & Hm & Hd & Hresponse).
  exists raws, nl.
  split; [exact Hbody|]. split; [exact Hresponse|]. split; [exact Hm|].
  split; [exact (decode_all_le _ _ Hd)|].
  intros queue. exact (decode_all_In _ _ queue Hd).
Qed.

End Generic.

(** Five records served two by two, one of them undecodable. *)
Lemma listAll_flattens_pages_witness :
  let c := paged_service (Nat.eqb 0) [3; 1; 0; 1; 5] 2 in
  let start := PageStart TUndefined
                 {| maxPageSize := None; operation_options := tt |} in
  let run := forAwaitPages (collaborators := c) 4 start [] in
  byPage tt {| settings_continuationToken := TUndefined;
               settings_maxPageSize := None |} [] = (inr start, [])
  /\ forAwaitAll (collaborators := c) 10 (getQueues tt) []
     = (List.concat (map items (fst (fst run))), snd (fst run), snd run).
Proof.
  intros c start run.
  apply (listAll_flattens_pages (collaborators := c) tt 4 10 []
           (fst (fst run)) (snd (fst run)) (snd run)).
  - vm_compute. reflexivity.
  - vm_compute. discriminate.
  - vm_compute. lia.
Defined.

(** A service whose next link names the offset zero. *)
Lemma scan_never_ends_witness :
  let c := fixed_service [7] (Some (nextLink_prefix ++ "0")%string) in
  let options := {| maxPageSize := None; operation_options := tt |} in
  let response :=
    {| status := 200;
       parsedBody := BodyArray [7] (Some (nextLink_prefix ++ "0")%string) |} in
  let page := {| items := [7]; continuationToken := TString "0";
                 _response := response |} in
  forAwaitPages (collaborators := c) 3 (PageStart TUndefined options) []
  = (repeat page 3, OutOfFuel,
     [] ++ repeat (page_request TUndefined options) 3).
Proof.
  intros c options response page.
  apply (scan_never_ends (collaborators := c) TUndefined options response page).
  - reflexivity.
  - reflexivity.
  - reflexivity.
  - vm_compute. reflexivity.
Defined.

Lemma byPage_resumes_witness :
  let c := paged_service (Nat.eqb 0) [3; 1; 0; 1; 5] 2 in
  let options := {| maxPageSize := None; operation_options := tt |} in
  let run := forAwaitPages (collaborators := c) 6 (PageStart TUndefined options) [] in
  forAwaitPages (collaborators := c) 5 (PageStart (TString "2") options)
    ([] ++ [page_request TUndefined options])
  = (tl (fst (fst run)), snd (fst run), snd run).
Proof.
  intros c options run.
  apply (byPage_resumes (collaborators := c) tt None TUndefined 5 []
           (hd {| items := []; continuationToken := TUndefined;
                  _response := {| status := 0; parsedBody := BodyNullish |} |}
               (fst (fst run)))).
  - vm_compute. reflexivity.
  - vm_compute. reflexivity.
  - vm_compute. reflexivity.
Defined.

Lemma next_link_without_skip_witness :
  let c := fixed_service [] None in
  let response :=
    {| status := 200;
       parsedBody := BodyArray [7] (Some "https://sb.example.net/$Resources/Queues") |} in
  exists page,
    buildListQueuesResponse (collaborators := c) response = inr page
    /\ continuationToken page = TNull.
Proof.
  intros c response.
  destruct (next_link_without_skip (collaborators := c)
              "https://sb.example.net/$Resources/Queues" [] response [7]
              eq_refl eq_refl (fun k v (H : In (k, v) []) => match H with end)
              eq_refl)
    as (_ & H1 & _).
  exists {| items := [7]; continuationToken := TNull; _response := response |}.
  split; [exact (H1 [7] eq_refl) | reflexivity].
Defined.

Lemma decimal_token_round_trip_witness :
  let options := {| maxPageSize := None; operation_options := tt |} in
  (Z.of_nat 40 <= 2 ^ 53)%Z
  /\ decimal 40 = "40"
  /\ offset_of (page_request (TString (decimal 40)) options) = Some 40%nat
  /\ skip_sent (page_request (TString (decimal 40)) options) = Some 40%Z.
Proof.
  intros options.
  assert (H : (Z.of_nat 40 <= 2 ^ 53)%Z) by (vm_compute; discriminate).
  split; [exact H|]. split; [reflexivity|].
  destruct (decimal_token_round_trip 40 tt None [] H)
    as (_ & H1 & H2 & _).
  split; assumption.
Defined.

Lemma page_items_are_decodings_witness :
  let c := fixed_service [] None in
  let response := {| status := 200; parsedBody := BodyArray [7; 0] None |} in
  let page := {| items := [7]; continuationToken := TUndefined;
                 _response := response |} in
  exists raws nextLink,
    parsedBody response = BodyArray raws nextLink
    /\ (List.length (items page) <= List.length raws)%nat.
Proof.
  intros c response page.
  destruct (page_items_are_decodings (collaborators := c) response page eq_refl)
    as (raws & nl & H1 & _ & _ & H2 & _).
  exists raws, nl. split; assumption.
Defined.

End ScanExtras.

(** ** Single entities, paths and the endpoint *)

Module ResourceFacts.

Import Paging Resources.

Section EntityFacts.

Context {Raw QueueProperties OperationOptions : Type}.
Context {collaborators : Collaborators Raw QueueProperties OperationOptions}.

Variable buildQueue_body : ParsedBody Raw -> Exn + option QueueProperties.

(** No body, or an empty array. *)
Definition absent (body : ParsedBody Raw) : bool :=
  match body with
  | BodyNullish => true
  | BodyArray [] _ => true
  | _ => false
  end.

Definition entity_request (name : string) (operation : OperationOptions)
  : WebResource OperationOptions :=
  {| path := name; queryParams := []; operationOptions := operation |}.

Definition queue_parse_error (response : HttpOperationResponse Raw) : Exn :=
  RestError
    "Error occurred while parsing the response body - cannot form a queue object using the response from the service."
    PARSE_ERROR (status response).

Lemma getResource_unfold name operation log :
  getResource name operation log =
    (match executeAtomXmlOperation (entity_request name operation) with
     | inl e => inl e
     | inr response =>
         if absent (parsedBody response) then inl (not_found name)
         else inr response
     end, log ++ [entity_request name operation]).
Proof.
  unfold getResource. fold (entity_request name operation).
  destruct (executeAtomXmlOperation _) as [e|response]; [reflexivity|].
  destruct (parsedBody response) as [|nl|[|raw raws] nl]; reflexivity.
Qed.

Lemma getQueue_unfold name operation log :
  getQueue buildQueue_body name operation log =
    (match executeAtomXmlOperation (entity_request name operation) with
     | inl e => inl e
     | inr response =>
         if absent (parsedBody response) then inl (not_found name)
         else
           match buildQueue_body (parsedBody response) with
           | inr queue =>
               inr {| queue := queue; queue_response := response |}
           | inl _ => inl (queue_parse_error response)
           end
     end, log ++ [entity_request name operation]).
Proof.
  unfold getQueue. rewrite getResource_unfold.
  destruct (executeAtomXmlOperation _) as [e|response]; [reflexivity|].
  destruct (absent (parsedBody response)); [reflexivity|].
  unfold buildQueueResponse, queue_parse_error.
  destruct (buildQueue_body (parsedBody response)); reflexivity.
Qed.

Definition is_not_found (e : Exn) : bool :=
  match code_of e with
  | Some code => code =? "MessageEntityNotFoundError"
  | None => false
  end.

Lemma is_not_found_code (e : Exn) :
  is_not_found e = true <-> code_of e = Some "MessageEntityNotFoundError".
Proof.
  unfold is_not_found. destruct (code_of e) as [code|].
  - rewrite String.eqb_eq. split; congruence.
  - split; discriminate.
Qed.

Lemma queueExists_unfold name operation log :
  queueExists buildQueue_body name operation log =
    match getQueue buildQueue_body name operation log with
    | (inr _, log') => (inr true, log')
    | (inl e, log') =>
        if is_not_found e then (inr false, log') else (inl e, log')
    end.
Proof.
  unfold queueExists, is_not_found.
  destruct (getQueue buildQueue_body name operation log) as [[e|q] log'];
    [|reflexivity].
  destruct (code_of e); reflexivity.
Qed.

(** X9.  [queueExists] issues the one request of [getQueue] and tells
    what became of it: [true] when [getQueue] resolves, [false] when it
    rejects with the code [MessageEntityNotFoundError], and the rejection
    itself otherwise, so that it never rejects with that code.  An answer
    without a body or with an empty array counts as not found whatever its
    status, and an entity that is there but cannot be decoded makes
    [queueExists] reject with the parse error. *)
Theorem queueExists_outcomes (name : string) (operation : OperationOptions)
  (log : list (WebResource OperationOptions)) :
  let request := entity_request name operation in
  let '(found, log1) := queueExists buildQueue_body name operation log in
  let '(got, log2) := getQueue buildQueue_body name operation log in
  log1 = log ++ [request] /\ log2 = log1
  /\ (found = inr true <-> exists q, got = inr q)
  /\ (found = inr false <->
      exists e, got = inl e
                /\ code_of e = Some "MessageEntityNotFoundError")
  /\ (forall e, found = inl e ->
        got = inl e /\ code_of e <> Some "MessageEntityNotFoundError")
  /\ (forall response,
        executeAtomXmlOperation request = inr response ->
        absent (parsedBody response) = true ->
        found = inr false)
  /\ (forall response e,
        executeAtomXmlOperation request = inr response ->
        absent (parsedBody response) = false ->
        buildQueue_body (parsedBody response) = inl e ->
        found = inl (queue_parse_error response)).
Proof.
  intros request. rewrite queueExists_unfold, getQueue_unfold.
  fold request.
  set (got := match executeAtomXmlOperation request with
              | inl e => inl e
              | inr response => _
              end).
  assert (Hcases :
    (exists q, got = inr q)
    \/ (exists e, got = inl e /\ is_not_found e = true)
    \/ (exists e, got = inl e /\ is_not_found e = false)).
  { destruct got as [e|q]; [|left; now exists q].
    right. destruct (is_not_found e) eqn:E; [left|right]; now exists e. }
  assert (Habsent : forall response,
    executeAtomXmlOperation request = inr response ->
    absent (parsedBody response) = true -> got = inl (not_found name)).
  { intros response Hex Hab. unfold got. now rewrite Hex, Hab. }
  assert (Hparse : forall response e,
    executeAtomXmlOperation request = inr response ->
    absent (parsedBody response) = false ->
    buildQueue_body (parsedBody response) = inl e ->
    got = inl (queue_parse_error response)).
  { intros response e Hex Hab Hq. unfold got. now rewrite Hex, Hab, Hq. }
  clearbody got.
  destruct Hcases as [(q & ->)|[(e & -> & He)|(e & -> & He)]];
    try rewrite He.
  - repeat split; try reflexivity; try discriminate.
    + intros _. now exists q.
    + intros (e & H & _). discriminate.
    + intros response H1 H2. specialize (Habsent response H1 H2).
      discriminate.
    + intros response e H1 H2 H3. specialize (Hparse response e H1 H2 H3).
      discriminate.
  - repeat split; try reflexivity; try discriminate.
    + intros (q & H). discriminate.
    + intros _. exists e. split; [reflexivity|]. now apply is_not_found_code.
    + intros response e' H1 H2 H3. specialize (Hparse response e' H1 H2 H3).
      injection Hparse as ->. discriminate.
  - repeat split; try reflexivity; try discriminate.
    + intros (q & H). discriminate.
    + intros (e' & H & Hc). injection H as <-.
      apply is_not_found_code in Hc. congruence.
    + injection H as <-. reflexivity.
    + injection H as <-. intros Hc. apply is_not_found_code in Hc. congruence.
    + intros response H1 H2. specialize (Habsent response H1 H2).
      injection Habsent as ->. discriminate.
    + intros response e' H1 H2 H3. specialize (Hparse response e' H1 H2 H3).
      injection Hparse as ->. reflexivity.
Qed.

End EntityFacts.

(** *** Paths *)

Lemma split_at_slash (a a' r r' : string) :
  slash_free a = true -> slash_free a' = true ->
  (a ++ String "/" r)%string = (a' ++ String "/" r')%string ->
  a = a' /\ r = r'.
Proof.
  revert a'. induction a as [|c a IH]; intros [|c' a'] Ha Ha' H;
    cbn [String.append] in H.
  - injection H as ->. now split.
  - injection H as <- _. discriminate Ha'.
  - injection H as -> _. discriminate Ha.
  - injection H as -> H.
    unfold slash_free in Ha, Ha'. cbn [JS.chars list_ascii_of_string forallb] in *.
    apply andb_prop in Ha as [_ Ha]. apply andb_prop in Ha' as [_ Ha'].
    destruct (IH a' Ha Ha' H) as [-> ->]. now split.
Qed.

Lemma append_assoc (a b c : string) :
  ((a ++ b) ++ c)%string = (a ++ (b ++ c))%string.
Proof. induction a as [|x a IH]; cbn; [reflexivity | now rewrite IH]. Qed.

(** X10.  The path of a rule is the path of its subscription followed by
    [/Rules/] and the rule, and when the topic and the subscription are
    named without a slash the path tells the topic, the subscription and
    the rule apart: two rules with the same path are the same rule. *)
Theorem rule_path_injective (t s r t' s' r' : string) :
  slash_free t = true -> slash_free t' = true ->
  slash_free s = true -> slash_free s' = true ->
  getRulePath t s r = getRulePath t' s' r' ->
  t = t' /\ s = s' /\ r = r'
  /\ getRulePath t s r = (getSubscriptionPath t s ++ "/Rules/" ++ r)%string.
Proof.
  intros Ht Ht' Hs Hs' H. unfold getRulePath in H.
  cbn [String.append] in H.
  apply (split_at_slash t t' _ _ Ht Ht') in H as [-> H].
  repeat (injection H as H).
  apply (split_at_slash s s' _ _ Hs Hs') in H as [-> H].
  repeat (injection H as H). subst r'.
  repeat split. unfold getRulePath, getSubscriptionPath.
  now rewrite !append_assoc.
Qed.

Lemma rule_path_injective_witness :
  "orders" = "orders" /\ "audit" = "audit" /\ "high" = "high"
  /\ getRulePath "orders" "audit" "high"
     = (getSubscriptionPath "orders" "audit" ++ "/Rules/" ++ "high")%string.
Proof.
  exact (rule_path_injective "orders" "audit" "high" "orders" "audit" "high"
           eq_refl eq_refl eq_refl eq_refl eq_refl).
Defined.

(** *** The endpoint *)

Lemma chars_app (a b : string) :
  JS.chars (a ++ b) = JS.chars a ++ JS.chars b.
Proof.
  unfold JS.chars. induction a as [|c a IH]; cbn; [reflexivity | now rewrite IH].
Qed.

Lemma endsWith_slash_app (s : string) : endsWith (s ++ "/") "/" = true.
Proof.
  unfold endsWith. rewrite chars_app, rev_app_distr. reflexivity.
Qed.

Lemma slash_free_no_trailing (s : string) :
  slash_free s = true -> endsWith s "/" = false.
Proof.
  unfold slash_free, endsWith. intros H.
  rewrite <- JSFacts.forallb_rev in H.
  change (List.rev (JS.chars "/")) with ["/"%char].
  destruct (List.rev (JS.chars s)) as [|c l]; [reflexivity|].
  cbn [forallb] in H. apply andb_prop in H as [Hc _].
  cbn [starts_with]. rewrite Ascii.eqb_sym.
  destruct (Ascii.eqb c "/"); [discriminate | reflexivity].
Qed.

(** X11.  [endpointWithProtocol] is the namespace after [sb://] with one
    slash at its end: it always ends with a slash, a namespace that ends
    with one gets no second one, and a namespace gives the same endpoint
    with or without the slash at its end. *)
Theorem endpointWithProtocol_slash (ns : string) :
  endsWith (endpointWithProtocol ns) "/" = true
  /\ (endsWith ns "/" = true ->
      endpointWithProtocol ns = ("sb://" ++ ns)%string)
  /\ (endsWith ns "/" = false ->
      endpointWithProtocol ns = ("sb://" ++ ns ++ "/")%string
      /\ endpointWithProtocol (ns ++ "/") = endpointWithProtocol ns).
Proof.
  unfold endpointWithProtocol.
  destruct (endsWith ns "/") eqn:E; repeat split; try discriminate.
  - unfold endsWith in *. rewrite chars_app, rev_app_distr.
    change (List.rev (JS.chars "/")) with ["/"%char] in *.
    destruct (List.rev (JS.chars ns)) as [|c l]; [discriminate|].
    exact E.
  - rewrite <- append_assoc. apply endsWith_slash_app.
  - now rewrite endsWith_slash_app.
Qed.

(** Whether [cs] holds a colon followed by two slashes. *)
Fixpoint has_scheme (cs : list ascii) : bool :=
  match strip (JS.chars "://") cs with
  | Some _ => true
  | None =>
      match cs with
      | _ :: cs' => has_scheme cs'
      | [] => false
      end
  end.

Lemma has_scheme_occurs (cs : list ascii) :
  has_scheme cs = true <->
  exists pre post, cs = pre ++ JS.chars "://" ++ post.
Proof.
  assert (Hstrip : forall t s rest, strip t s = Some rest <-> s = t ++ rest).
  { induction t as [|a t IH]; intros s rest; cbn [strip app].
    - split; congruence.
    - destruct s as [|b s]; [split; discriminate|].
      destruct (Ascii.eqb_spec a b) as [->|Hne].
      + rewrite IH. split; [now intros -> | now intros [= ->]].
      + split; [discriminate | intros [= -> _]; now elim Hne]. }
  induction cs as [|c cs IH]; cbn [has_scheme].
  - cbn. split; [discriminate|].
    intros (pre & post & H). destruct pre; discriminate.
  - destruct (strip (JS.chars "://") (c :: cs)) as [rest|] eqn:E.
    + apply Hstrip in E. split; [|reflexivity].
      intros _. exists [], rest. exact E.
    + rewrite IH. split.
      * intros (pre & post & ->). now exists (c :: pre), post.
      * intros ([|x pre] & post & H).
        -- cbn [app] in H. apply Hstrip in H. congruence.
        -- injection H as -> ->. now exists pre, post.
Qed.

Lemma match_here_none (cs : list ascii) :
  has_scheme cs = false -> match_here cs = None.
Proof.
  induction cs as [|c cs IH]; [reflexivity|].
  cbn [has_scheme match_here]. unfold scheme_end.
  destruct (strip (JS.chars "://") (c :: cs)); [discriminate|].
  intros H. rewrite (IH H). now destruct (is_line_terminator c).
Qed.

Lemma match_here_scheme (cs : list ascii) :
  match_here cs <> None -> has_scheme cs = true.
Proof.
  intros H. destruct (has_scheme cs) eqn:E; [reflexivity|].
  now rewrite (match_here_none cs E) in H.
Qed.

Lemma match_endpoint_none (cs : list ascii) :
  match_endpoint cs = None <-> has_scheme cs = false.
Proof.
  induction cs as [|c cs IH].
  - cbn. split; reflexivity.
  - cbn [match_endpoint]. split.
    + destruct (match_here (c :: cs)) as [g|] eqn:E; [discriminate|].
      intros H. apply IH in H.
      cbn [has_scheme]. cbn [match_here] in E. unfold scheme_end in E.
      destruct (strip (JS.chars "://") (c :: cs)); [|exact H].
      destruct (is_line_terminator c); [discriminate|].
      destruct (match_here cs); discriminate.
    + intros H. rewrite (match_here_none _ H).
      apply IH. cbn [has_scheme] in H.
      now destruct (strip (JS.chars "://") (c :: cs)).
Qed.

Lemma not_slashes_free (cs : list ascii) :
  forallb (fun c => negb (Ascii.eqb c "/")) (not_slashes cs) = true.
Proof.
  induction cs as [|c cs IH]; [reflexivity|].
  cbn [not_slashes]. destruct (Ascii.eqb c "/") eqn:E; [reflexivity|].
  cbn [forallb]. now rewrite E, IH.
Qed.

Lemma match_here_group (cs : list ascii) g :
  match_here cs = Some g -> exists rest, g = not_slashes rest.
Proof.
  induction cs as [|c cs IH]; [discriminate|].
  cbn [match_here]. unfold scheme_end.
  destruct (is_line_terminator c).
  - destruct (strip _ _) as [rest|]; [|discriminate].
    intros [= <-]. now exists rest.
  - destruct (match_here cs) as [g'|]; [intros [= <-]; now apply IH|].
    destruct (strip _ _) as [rest|]; [|discriminate].
    intros [= <-]. now exists rest.
Qed.

Lemma match_endpoint_group (cs : list ascii) g :
  match_endpoint cs = Some g -> exists rest, g = not_slashes rest.
Proof.
  induction cs as [|c cs IH]; cbn [match_endpoint].
  - cbn. discriminate.
  - destruct (match_here (c :: cs)) as [g'|] eqn:E; [|exact IH].
    intros [= <-]. exact (match_here_group _ _ E).
Qed.

Example match_endpoint_examples :
  match_endpoint (JS.chars "sb://contoso.servicebus.windows.net/")
  = Some (JS.chars "contoso.servicebus.windows.net")
  /\ match_endpoint (JS.chars "sb://a/b://c/d") = Some (JS.chars "c")
  /\ match_endpoint (JS.chars "sb://") = Some []
  /\ match_endpoint (JS.chars "contoso.servicebus.windows.net") = None.
Proof. repeat split. Qed.

(** X12.  Given a connection string the constructor fails for want of an
    [Endpoint], or of a colon and two slashes in it, and otherwise takes
    for the namespace what follows such a mark up to the next slash: the
    namespace holds no slash, and [endpointWithProtocol] is the namespace
    between [sb://] and one slash. *)
Theorem connection_string_endpoint :
  construct_from_connection_string None
  = inl (Error "Missing Endpoint in connection string.")
  /\ (forall e : string,
        construct_from_connection_string (Some e)
        = inl (Error "Endpoint in the connection string is not valid.")
        <-> ~ exists pre post, JS.chars e = pre ++ JS.chars "://" ++ post)
  /\ (forall (e : string) r,
        construct_from_connection_string (Some e) = inr r ->
        slash_free (endpoint r) = true
        /\ endpoint_with_protocol r = ("sb://" ++ endpoint r ++ "/")%string).
Proof.
  split; [reflexivity|]. split.
  - intros e. unfold construct_from_connection_string.
    rewrite <- has_scheme_occurs.
    destruct (match_endpoint (JS.chars e)) as [g|] eqn:E.
    + split; [discriminate|]. intros H.
      assert (has_scheme (JS.chars e) = false)
        by (destruct (has_scheme (JS.chars e)); [now elim H | reflexivity]).
      apply match_endpoint_none in H0. congruence.
    + split; [|reflexivity]. intros _.
      apply match_endpoint_none in E. now rewrite E.
  - intros e r. unfold construct_from_connection_string.
    destruct (match_endpoint (JS.chars e)) as [g|] eqn:E; [|discriminate].
    intros [= <-]. cbn [endpoint endpoint_with_protocol endpoints_of].
    destruct (match_endpoint_group _ _ E) as (rest & ->).
    assert (Hfree : slash_free (string_of_list_ascii (not_slashes rest)) = true).
    { unfold slash_free, JS.chars.
      rewrite list_ascii_of_string_of_list_ascii. apply not_slashes_free. }
    split; [exact Hfree|].
    unfold endpointWithProtocol.
    now rewrite (slash_free_no_trailing _ Hfree).
Qed.

Lemma has_scheme_host (h t : list ascii) :
  forallb (fun c => negb (Ascii.eqb c "/")) h = true ->
  t = [] \/ t = ["/"%char] ->
  has_scheme (h ++ t) = false.
Proof.
  intros Hh Ht. induction h as [|c h IH].
  - destruct Ht as [-> | ->]; reflexivity.
  - cbn [forallb] in Hh. apply andb_prop in Hh as [Hc Hh].
    specialize (IH Hh). cbn [app has_scheme].
    replace (strip (JS.chars "://") (c :: h ++ t)) with (@None (list ascii));
      [exact IH|].
    cbn [JS.chars list_ascii_of_string strip].
    destruct (Ascii.eqb ":" c); [|reflexivity].
    destruct h as [|c' h].
    + destruct Ht as [-> | ->]; reflexivity.
    + cbn [app forallb] in *. apply andb_prop in Hh as [Hc' _].
      rewrite Ascii.eqb_sym. now destruct (Ascii.eqb c' "/").
Qed.

Lemma not_slashes_host (h t : list ascii) :
  forallb (fun c => negb (Ascii.eqb c "/")) h = true ->
  t = [] \/ t = ["/"%char] ->
  not_slashes (h ++ t) = h.
Proof.
  intros Hh Ht. induction h as [|c h IH].
  - destruct Ht as [-> | ->]; reflexivity.
  - cbn [forallb] in Hh. apply andb_prop in Hh as [Hc Hh].
    cbn [app not_slashes]. destruct (Ascii.eqb c "/"); [discriminate|].
    now rewrite (IH Hh).
Qed.

Lemma match_here_cons (c : ascii) (cs : list ascii) :
  match_here (c :: cs) =
    if is_line_terminator c then scheme_end (c :: cs)
    else match match_here cs with
         | Some group => Some group
         | None => scheme_end (c :: cs)
         end.
Proof. reflexivity. Qed.

Lemma match_here_endpoint (p h t : list ascii) :
  forallb (fun c => negb (is_line_terminator c)) p = true ->
  forallb (fun c => negb (Ascii.eqb c "/")) h = true ->
  t = [] \/ t = ["/"%char] ->
  match_here (p ++ JS.chars "://" ++ h ++ t) = Some h.
Proof.
  intros Hp Hh Ht. induction p as [|c p IH].
  - cbn [app JS.chars list_ascii_of_string].
    rewrite match_here_cons.
    replace (is_line_terminator ":") with false by reflexivity.
    assert (H1 : match_here ("/"%char :: "/"%char :: h ++ t) = None).
    { apply match_here_none. cbn [has_scheme].
      replace (strip (JS.chars "://") ("/"%char :: "/"%char :: h ++ t))
        with (@None (list ascii)) by reflexivity.
      replace (strip (JS.chars "://") ("/"%char :: h ++ t))
        with (@None (list ascii)) by reflexivity.
      now apply has_scheme_host. }
    rewrite H1. unfold scheme_end.
    cbn [JS.chars list_ascii_of_string strip].
    rewrite !Ascii.eqb_refl. now rewrite not_slashes_host.
  - cbn [forallb] in Hp. apply andb_prop in Hp as [Hc Hp].
    cbn [app]. rewrite match_here_cons.
    destruct (is_line_terminator c); [discriminate|].
    now rewrite (IH Hp).
Qed.

(** X13.  An [Endpoint] made of a scheme on one line, a colon and two
    slashes, and a host without a slash, with or without a slash at its
    end, gives the host for the namespace; for the scheme [sb] and a slash
    at the end, [endpointWithProtocol] is the [Endpoint] again. *)
Theorem connection_string_round_trip (scheme host : string) :
  forallb (fun c => negb (is_line_terminator c)) (JS.chars scheme) = true ->
  slash_free host = true ->
  construct_from_connection_string
    (Some (scheme ++ "://" ++ host ++ "/")%string)
  = inr {| endpoint := host;
           endpoint_with_protocol := ("sb://" ++ host ++ "/")%string |}
  /\ construct_from_connection_string (Some (scheme ++ "://" ++ host)%string)
     = inr {| endpoint := host;
              endpoint_with_protocol := ("sb://" ++ host ++ "/")%string |}.
Proof.
  intros Hscheme Hhost.
  assert (Hend : endpoints_of host
                 = {| endpoint := host;
                      endpoint_with_protocol := ("sb://" ++ host ++ "/")%string |}).
  { unfold endpoints_of, endpointWithProtocol.
    now rewrite (slash_free_no_trailing _ Hhost). }
  assert (Hmatch : forall t, t = [] \/ t = ["/"%char] ->
            match_endpoint (JS.chars scheme ++ JS.chars "://"
                            ++ JS.chars host ++ t)
            = Some (JS.chars host)).
  { intros t Ht.
    pose proof (match_here_endpoint (JS.chars scheme) (JS.chars host) t
                  Hscheme Hhost Ht) as H.
    destruct (JS.chars scheme ++ JS.chars "://" ++ JS.chars host ++ t);
      cbn [match_endpoint]; now rewrite H. }
  unfold construct_from_connection_string. split.
  - rewrite !chars_app.
    change (JS.chars "/") with ["/"%char].
    rewrite (Hmatch ["/"%char] (or_intror eq_refl)).
    unfold JS.chars. now rewrite string_of_list_ascii_of_string, Hend.
  - rewrite !chars_app.
    rewrite <- (app_nil_r (JS.chars host)).
    rewrite (Hmatch [] (or_introl eq_refl)).
    unfold JS.chars. now rewrite string_of_list_ascii_of_string, Hend.
Qed.

Lemma connection_string_round_trip_witness :
  construct_from_connection_string
    (Some "sb://contoso.servicebus.windows.net/")
  = inr {| endpoint := "contoso.servicebus.windows.net";
           endpoint_with_protocol := "sb://contoso.servicebus.windows.net/" |}
  /\ construct_from_connection_string
       (Some "sb://contoso.servicebus.windows.net")
     = inr {| endpoint := "contoso.servicebus.windows.net";
              endpoint_with_protocol := "sb://contoso.servicebus.windows.net/" |}.
Proof.
  exact (connection_string_round_trip "sb" "contoso.servicebus.windows.net"
           eq_refl eq_refl).
Defined.

End ResourceFacts.

(** ** Where a scan stops *)

Module StopFacts.

Import Paging Service PageFacts ScanFacts.

Section Generic.

Context {Raw QueueProperties OperationOptions : Type}.
Context {collaborators : Collaborators Raw QueueProperties OperationOptions}.

Local Notation "'WebResource'" := (WebResource OperationOptions).
Local Notation "'PageOptions'" := (PageOptions OperationOptions).
Local Notation "'EntitiesResponse'" := (EntitiesResponse Raw QueueProperties).

(** A page with a continuation token to go on with. *)
Definition goes_on (page : EntitiesResponse) : Prop :=
  truthy (continuationToken page) = true.

Lemma forAwaitPages_absent (fuel : nat) (m : Token) (options : PageOptions)
  (log : list WebResource) :
  truthy m = false ->
  fst (fst (forAwaitPages fuel (PageYielded m options) log)) = [].
Proof.
  intros Hm. destruct fuel as [|fuel]; [reflexivity|].
  cbn [forAwaitPages listQueuesPage_next]. now rewrite Hm.
Qed.

Lemma stops_from (fuel : nat) :
  forall (m : Token) (options : PageOptions) (log : list WebResource) g,
    g = PageStart m options \/ g = PageYielded m options ->
    let '(pages, outcome, _) := forAwaitPages fuel g log in
    Forall goes_on (removelast pages)
    /\ (outcome = Completed ->
        (pages = [] /\ g = PageYielded m options /\ truthy m = false)
        \/ exists init page,
             pages = init ++ [page]
             /\ truthy (continuationToken page) = false).
Proof.
  induction fuel as [|fuel IH]; intros m options log g Hg.
  - cbn. split; [constructor | discriminate].
  - cbn [forAwaitPages].
    assert (Hround :
      listQueuesPage_next g log = listQueuesPage_round m options log
      \/ (listQueuesPage_next g log = (Finished, PageCompleted, log)
          /\ g = PageYielded m options /\ truthy m = false)).
    { destruct Hg as [-> | ->]; cbn [listQueuesPage_next]; [now left|].
      destruct (truthy m); [now left | now right]. }
    destruct Hround as [-> | (-> & Hy & Hm)].
    2:{ split; [constructor|]. intros _. now left. }
    rewrite listQueuesPage_round_unfold.
    destruct (executeAtomXmlOperation (page_request m options)) as [e|r];
      [split; [constructor | discriminate]|].
    destruct (buildListQueuesResponse r) as [e|page];
      [split; [constructor | discriminate]|].
    pose proof (IH (continuationToken page) options
                  (log ++ [page_request m options])
                  (PageYielded (continuationToken page) options)
                  (or_intror eq_refl)) as H.
    pose proof (forAwaitPages_absent fuel (continuationToken page) options
                  (log ++ [page_request m options])) as Habsent.
    destruct (forAwaitPages fuel _ _) as [[rest outcome] log'].
    cbn [fst] in Habsent. destruct H as [Hall Hdone]. split.
    + destruct rest as [|next rest]; [constructor|].
      change (removelast (page :: next :: rest))
        with (page :: removelast (next :: rest)).
      constructor; [|exact Hall].
      unfold goes_on. destruct (truthy (continuationToken page));
        [reflexivity|]. now specialize (Habsent eq_refl).
    + intros Hc. right.
      destruct (Hdone Hc) as [(-> & _ & Hm)|(init & last & -> & Hlast)].
      * now exists [], page.
      * now exists (page :: init), last.
Qed.

(** X14.  A scan by pages stops at the first page without a continuation
    token and not before: every page it yields but the last has a token to
    go on with, and when the scan completes it has yielded a page, the
    last of which has none. *)
Theorem scan_stops_at_absent_token (fuel : nat) (m : Token)
  (options : PageOptions) (log : list WebResource) :
  let '(pages, outcome, _) :=
    forAwaitPages fuel (PageStart m options) log in
  Forall goes_on (removelast pages)
  /\ (outcome = Completed ->
      exists init page,
        pages = init ++ [page] /\ truthy (continuationToken page) = false).
Proof.
  pose proof (stops_from fuel m options log _ (or_introl eq_refl)) as H.
  destruct (forAwaitPages fuel (PageStart m options) log)
    as [[pages outcome] log'].
  destruct H as [Hall Hdone]. split; [exact Hall|].
  intros Hc. destruct (Hdone Hc) as [(_ & Hg & _)|H]; [discriminate | exact H].
Qed.

End Generic.

End StopFacts.
